(** * terminal-wordle (yorkle.c): a shallow embedding and its properties

    The functions of [yorkle.c] that carry the game logic are embedded
    here: [compare_result] (letter feedback), [attempt_is_valid]
    (guess validation), [save_stats] (statistics update and
    persistence) and [print_stats] (statistics summary).

    C arrays are lists indexed with stdpp's lookup [l !! i] and updated
    with [<[i:=x]> l]; an access outside the array is a fault.  C
    strings are the list of their characters before the terminating
    NUL.  Code that mutates memory or performs I/O runs in a small
    state-and-fault monad. *)

From Stdlib Require Import ZArith Ascii String Lia.
From Stdlib Require Import Floats.PrimFloat.
From stdpp Require Import base list strings.

Local Open Scope Z_scope.

(** ** A state monad with faults *)

Module Machine.

(** The ways in which the C code can leave defined behaviour. *)
Inductive fault : Type :=
| OutOfBounds (index : Z)   (* array access outside its storage *)
| NullStream.               (* stdio call on a NULL [FILE*] *)

Inductive outcome (A : Type) : Type :=
| Ok (a : A)
| Fault (f : fault).
Arguments Ok {A} a.
Arguments Fault {A} f.

(** A computation over a store [S]: the store survives a fault, so
    the writes made before the fault stay visible. *)
Definition M (S A : Type) : Type := S -> outcome A * S.

Definition ret {S A} (a : A) : M S A := fun s => (Ok a, s).

Definition bind {S A B} (m : M S A) (k : A -> M S B) : M S B :=
  fun s => match m s with
           | (Ok a, s') => k a s'
           | (Fault f, s') => (Fault f, s')
           end.

Definition raise {S A} (f : fault) : M S A := fun s => (Fault f, s).
Definition get {S} : M S S := fun s => (Ok s, s).
Definition gets {S A} (proj : S -> A) : M S A := fun s => (Ok (proj s), s).
Definition modify {S} (upd : S -> S) : M S unit := fun s => (Ok tt, upd s).

(** [for (i = lo; i < lo + n; i++) body(i);] *)
Fixpoint for_loop {S} (lo : nat) (n : nat) (body : nat -> M S unit) : M S unit :=
  match n with
  | O => ret tt
  | Datatypes.S n' => bind (body lo) (fun _ => for_loop (Datatypes.S lo) n' body)
  end.

(** A [for] loop whose body may leave the loop early ([break] or
    [return]): the body answers [Some a] to leave with [a], [None] to
    go on; the loop answers [None] when it runs to its bound. *)
Fixpoint for_until {S A} (lo : nat) (n : nat) (body : nat -> M S (option A))
  : M S (option A) :=
  match n with
  | O => ret None
  | Datatypes.S n' =>
      bind (body lo) (fun r =>
        match r with
        | Some a => ret (Some a)
        | None => for_until (Datatypes.S lo) n' body
        end)
  end.

(** Array cell read and write, faulting outside the array. *)
Definition load {S A} (arr : list A) (i : nat) : M S A :=
  match arr !! i with
  | Some x => ret x
  | None => raise (OutOfBounds (Z.of_nat i))
  end.

Definition store {S A} (arr : list A) (i : nat) (x : A) : M S (list A) :=
  if decide (i < length arr)%nat then ret (<[i:=x]> arr)
  else raise (OutOfBounds (Z.of_nat i)).

(** An index computed in C integer arithmetic, checked against the
    [len] cells of the array it is used on. *)
Definition cell {S} (len : nat) (i : Z) : M S nat :=
  if (0 <=? i) && (i <? Z.of_nat len) then ret (Z.to_nat i)
  else raise (OutOfBounds i).

End Machine.
Import Machine.

Declare Scope machine_scope.
Delimit Scope machine_scope with M.
Notation "'let*' x ':=' m 'in' k" := (bind m (fun x => k))
  (at level 10, x name, m at level 100, k at level 200) : machine_scope.
Notation "m1 ';;' m2" := (bind m1 (fun _ => m2))
  (at level 100, m2 at level 200, right associativity) : machine_scope.

(** ** Declarations of yorkle.h *)

(** Modelled from the spec: [yorkle.h] is not part of the sources.  The
    enumerators of [letter_result_t] take the values that [yorkle.c]
    itself tests for ([result[i] != 2] in [compare_result]; [== 0],
    [== 1], otherwise in [print_attempt_result]); the spec's verdicts
    Absent, Present, Correct are LR_INCORRECT, LR_WRONG_PLACE,
    LR_IN_PLACE. *)
Definition LR_INCORRECT : Z := 0.

(** Modelled from the spec: the enumerator of [yorkle.h] for Present. *)
Definition LR_WRONG_PLACE : Z := 1.

(** Modelled from the spec: the enumerator of [yorkle.h] for Correct. *)
Definition LR_IN_PLACE : Z := 2.

(** The mark written over a matched letter of the scratch copy. *)
Definition consumed_mark : ascii := "!"%char.

Definition NUL : ascii := "000"%char.

(** ** compare_result *)

(** The storage [compare_result] works on: the local [out], the local
    array [todays_answer_copy] and the caller's array [result]. *)
Record frame : Type := Frame {
  out : Z;
  todays_answer_copy : list ascii;
  result : list Z;
}.

Definition set_out (v : Z) : M frame unit :=
  modify (fun fr => Frame v (todays_answer_copy fr) (result fr)).

Definition write_copy (i : nat) (c : ascii) : M frame unit :=
  (let* cp := gets todays_answer_copy in
   let* cp' := store cp i c in
   modify (fun fr => Frame (out fr) cp' (result fr)))%M.

Definition write_result (i : nat) (v : Z) : M frame unit :=
  (let* r := gets result in
   let* r' := store r i v in
   modify (fun fr => Frame (out fr) (todays_answer_copy fr) r'))%M.

Definition read_copy (j : nat) : M frame ascii :=
  (let* cp := gets todays_answer_copy in load cp j)%M.

Definition read_result (i : nat) : M frame Z :=
  (let* r := gets result in load r i)%M.

Section CompareResult.

(** Modelled from the spec: [WORD_SIZE] is a macro of [yorkle.h]; it
    is the length of the secret and of a guess (5 in the game). *)
Variable WORD_SIZE : nat.

(** Lines 240-242: copy the answer. *)
Definition copy_answer (todays_answer : list ascii) : M frame unit :=
  for_loop 0 WORD_SIZE (fun i =>
    let* c := load todays_answer i in
    write_copy i c)%M.

(** Lines 244-252: letters in place. *)
Definition mark_in_place (todays_answer attempt : list ascii) : M frame unit :=
  for_loop 0 WORD_SIZE (fun i =>
    let* a := load attempt i in
    let* t := load todays_answer i in
    if Ascii.eqb a t then
      write_result i LR_IN_PLACE ;;
      write_copy i consumed_mark
    else
      set_out 0 ;;
      write_result i LR_INCORRECT)%M.

(** Lines 255-261: the scan of the copy for the letter at [i]; it
    answers [Some tt] when it leaves through [break].  As [&&] does,
    [result[i]] is read only when the letters are equal. *)
Definition scan_copy (attempt : list ascii) (i : nat) : M frame (option unit) :=
  for_until 0 WORD_SIZE (fun j =>
    let* a := load attempt i in
    let* c := read_copy j in
    if Ascii.eqb a c then
      let* r := read_result i in
      if negb (r =? 2) then
        write_result i LR_WRONG_PLACE ;;
        write_copy j consumed_mark ;;
        ret (Some tt)
      else ret None
    else ret None)%M.

(** Lines 254-262: letters in the wrong place. *)
Definition mark_wrong_place (attempt : list ascii) : M frame unit :=
  for_loop 0 WORD_SIZE (fun i => scan_copy attempt i ;; ret tt)%M.

Definition compare_result_body (todays_answer attempt : list ascii) : M frame Z :=
  (copy_answer todays_answer ;;
   mark_in_place todays_answer attempt ;;
   mark_wrong_place attempt ;;
   gets out)%M.

(** The frame at entry: [out] is initialised to 1, the scratch array
    has [WORD_SIZE] cells (each is written before it is read), and
    [result] is whatever the caller passes. *)
Definition entry_frame (result0 : list Z) : frame :=
  Frame 1 (replicate WORD_SIZE NUL) result0.

(** [compare_result todays_answer attempt result0] is the returned
    value (or fault) with the frame at exit; the verdicts are the
    [result] field of that frame. *)
Definition compare_result (todays_answer attempt : list ascii) (result0 : list Z)
  : outcome Z * frame :=
  compare_result_body todays_answer attempt (entry_frame result0).

End CompareResult.

(** The verdict that the second loop writes at a position, from whether
    the letters are equal there. *)
Definition in_place_code (b : bool) : Z := if b then LR_IN_PLACE else LR_INCORRECT.

(** One run of the inner loop either leaves the frame as it is (the
    position is in place already, or the copy has no such letter), or
    marks position [i] and consumes the leftmost cell of the copy that
    holds its letter. *)
Definition scan_effect (i : nat) (a : ascii) (fr fr' : frame) : Prop :=
  (fr' = fr /\
   forall j, todays_answer_copy fr !! j = Some a -> result fr !! i = Some 2)
  \/
  (exists j,
     result fr !! i <> Some 2 /\
     todays_answer_copy fr !! j = Some a /\
     (forall j', (j' < j)%nat -> todays_answer_copy fr !! j' <> Some a) /\
     fr' = Frame (out fr) (<[j:=consumed_mark]> (todays_answer_copy fr))
                 (<[i:=LR_WRONG_PLACE]> (result fr))).

Definition word (s : string) : list ascii := list_ascii_of_string s.

(** Lowercase ASCII letters, the alphabet of the game's words. *)
Definition is_lower (c : ascii) : bool :=
  let n := nat_of_ascii c in (97 <=? n)%nat && (n <=? 122)%nat.

Definition lowercase (w : list ascii) : bool := forallb is_lower w.

(** ** attempt_is_valid *)

(** Modelled from the spec: [valid_word_list_t] is declared in
    [yorkle.h]; [yorkle.c] uses its fields [words] (an array of C
    strings) and [num_words] (how many of them are filled). *)
Record valid_word_list_t : Type := {
  words : list (list ascii);
  num_words : Z;
}.

(** The listed words: the first [num_words] rows. *)
Definition word_set (valid_words : valid_word_list_t) : list (list ascii) :=
  take (Z.to_nat (num_words valid_words)) (words valid_words).

Definition strlen (s : list ascii) : nat := length s.

(** [strcmp(a, b) == 0] *)
Definition strcmp_eq (a b : list ascii) : bool := bool_decide (a = b).

Definition newline : string := String "010"%char EmptyString.

(** The text of [fprintf(stderr, "'%s' is not a valid word.\n", attempt)]. *)
Definition not_a_valid_word (attempt : list ascii) : string :=
  ("'" ++ string_of_list_ascii attempt ++ "' is not a valid word." ++ newline)%string.

(** Standard error is the list of the texts written to it. *)
Definition fprintf_stderr (text : string) : M (list string) unit :=
  modify (fun err => err ++ [text]).

Section AttemptIsValid.

Variable WORD_SIZE : nat.

Definition attempt_is_valid (valid_words : valid_word_list_t) (attempt : list ascii)
  : M (list string) Z :=
  (if negb (strlen attempt =? WORD_SIZE)%nat then
     fprintf_stderr (not_a_valid_word attempt) ;;
     ret 0
   else
     let* found :=
       for_until 0 (Z.to_nat (num_words valid_words)) (fun i =>
         let* w := load (words valid_words) i in
         if strcmp_eq w attempt then ret (Some 1) else ret None) in
     match found with
     | Some v => ret v
     | None =>
         fprintf_stderr (not_a_valid_word attempt) ;;
         ret 0
     end)%M.

End AttemptIsValid.

(** [tolower] of the C locale, which [read_attempt] applies to every
    character it reads. *)
Definition tolower (c : ascii) : ascii :=
  let n := nat_of_ascii c in
  if (65 <=? n)%nat && (n <=? 90)%nat then ascii_of_nat (n + 32) else c.

(** The validator as the specification words it: the length is checked
    first, then the membership of the lowercased attempt, and the
    lowercased attempt is returned. *)
Inductive ValidationError : Type := WrongLength | NotInWordList.

Definition validate (WORD_SIZE : nat) (word_list : list (list ascii)) (attempt : list ascii)
  : ValidationError + list ascii :=
  if negb (length attempt =? WORD_SIZE)%nat then inl WrongLength
  else if bool_decide (map tolower attempt ∈ word_list) then inr (map tolower attempt)
  else inl NotInWordList.

(** [attempt_is_valid] answers as [validate] does: zero where [validate]
    gives an error, non-zero where it gives a word. *)
Definition agrees_with_validate (WORD_SIZE : nat) (valid_words : valid_word_list_t)
    (attempt : list ascii) : Prop :=
  match validate WORD_SIZE (word_set valid_words) attempt with
  | inl _ => (attempt_is_valid WORD_SIZE valid_words attempt []).1 = Ok 0
  | inr _ => exists ret, (attempt_is_valid WORD_SIZE valid_words attempt []).1 = Ok ret
                         /\ ret <> 0
  end.

(** ** save_stats *)

(** Modelled from the spec: [player_stats_t] is declared in [yorkle.h];
    [yorkle.c] uses its fields [wins_per_num_attempts] (an array of
    [MAX_NUM_ATTEMPTS] counters) and [num_missed_words].  The counters
    are counts of games, taken as unbounded integers.  The C counters
    have a fixed width: a count from 0 up to, not including, [INT_MAX]
    is held and incremented without overflow by an [int] and by an
    [unsigned int] counter alike, and is printed as that number by "%u"
    and by "%d"; [counters_in_range] is this range, and the theorems
    about the values of the counters carry it. *)
Record player_stats_t : Type := {
  wins_per_num_attempts : list Z;
  num_missed_words : Z;
}.

(** What [save_stats] works on: the caller's stats, and the file
    [stats.txt], which can or cannot be opened for writing and holds the
    numbers written to it. *)
Record world : Type := World {
  stats : player_stats_t;
  stats_writable : bool;
  stats_txt : list Z;
}.

Definition set_stats (st : player_stats_t) : M world unit :=
  modify (fun w => World st (stats_writable w) (stats_txt w)).

(** A [FILE*]: [None] is NULL. *)
Inductive stream : Type := stats_stream.

(** [fopen(STATS_FILENAME, "w")]: NULL when the file cannot be opened,
    else the file is emptied. *)
Definition fopen_stats_w : M world (option stream) :=
  fun w => if stats_writable w then (Ok (Some stats_stream), World (stats w) true [])
           else (Ok None, w).

(** [fprintf(fh, "%u ", v)] and [fprintf(fh, "%u\n", v)]: the number is
    appended to the file; a NULL stream is a fault.  The number written
    is [v] for [v] from 0 to [UINT_MAX], which [counters_in_range]
    gives. *)
Definition fprintf_u (fh : option stream) (v : Z) : M world unit :=
  match fh with
  | Some _ => modify (fun w => World (stats w) (stats_writable w) (stats_txt w ++ [v]))
  | None => raise NullStream
  end.

Definition fclose (fh : option stream) : M world unit :=
  match fh with
  | Some _ => ret tt
  | None => raise NullStream
  end.

(** [unsigned int] arithmetic. *)
Definition UINT_MODULUS : Z := 2 ^ 32.
Definition uint_sub (a b : Z) : Z := (a - b) mod UINT_MODULUS.

Section SaveStats.

(** Modelled from the spec: [MAX_NUM_ATTEMPTS] is a macro of
    [yorkle.h], the number of guesses of a game (6 in the game) and the
    number of cells of [wins_per_num_attempts]. *)
Variable MAX_NUM_ATTEMPTS : nat.

(** Lines 309-313: the update of the counters.  [++] adds 1 to a
    counter below the maximum of its type, which [counters_in_range]
    gives. *)
Definition update_stats (num_attempts : Z) : M world unit :=
  (let* st := gets stats in
   if num_attempts >? Z.of_nat MAX_NUM_ATTEMPTS then
     set_stats {| wins_per_num_attempts := wins_per_num_attempts st;
                  num_missed_words := num_missed_words st + 1 |}
   else
     let* k := cell (length (wins_per_num_attempts st)) (uint_sub num_attempts 1) in
     let* c := load (wins_per_num_attempts st) k in
     let* wins' := store (wins_per_num_attempts st) k (c + 1) in
     set_stats {| wins_per_num_attempts := wins';
                  num_missed_words := num_missed_words st |})%M.

(** Lines 315-324: the write to [stats.txt]. *)
Definition write_stats : M world Z :=
  (let* fh := fopen_stats_w in
   for_loop 0 MAX_NUM_ATTEMPTS (fun i =>
     let* st := gets stats in
     let* c := load (wins_per_num_attempts st) i in
     fprintf_u fh c) ;;
   let* st := gets stats in
   fprintf_u fh (num_missed_words st) ;;
   fclose fh ;;
   ret 1)%M.

Definition save_stats (num_attempts : Z) : M world Z :=
  (update_stats num_attempts ;; write_stats)%M.

End SaveStats.

(** The counts that a counter of [player_stats_t] holds and [++]
    increments without overflow whether it is an [int] or an
    [unsigned int]: from 0 up to, not including, [INT_MAX]. *)
Definition counters_in_range (st : player_stats_t) : Prop :=
  Forall (fun c => 0 <= c < 2 ^ 31 - 1) (wins_per_num_attempts st ++ [num_missed_words st]).

(** Lines 93-94 of [load_stats]: the stats of a player without a
    [stats.txt], every counter zero. *)
Definition no_stats (MAX_NUM_ATTEMPTS : nat) : player_stats_t :=
  {| wins_per_num_attempts := replicate MAX_NUM_ATTEMPTS 0; num_missed_words := 0 |}.

(** ** print_stats *)

(** [int] arithmetic, wrapping in two's complement. *)
Definition int_wrap (z : Z) : Z := (z + 2 ^ 31) mod 2 ^ 32 - 2 ^ 31.

(** The conversion of an [int] to [double], exact on the range of [int]. *)
Fixpoint double_of_positive (p : positive) : float :=
  match p with
  | xH => 1%float
  | xO p' => PrimFloat.mul 2%float (double_of_positive p')
  | xI p' => PrimFloat.add (PrimFloat.mul 2%float (double_of_positive p')) 1%float
  end.

Definition double_of_int (z : Z) : float :=
  match z with
  | Z0 => 0%float
  | Zpos p => double_of_positive p
  | Zneg p => PrimFloat.opp (double_of_positive p)
  end.

(** What [printf] wrote: literal text, a [%d] argument or a [%.1lf]
    argument. *)
Inductive printed : Type :=
| Text (s : string)
| Int (z : Z)
| Double (f : float).

Definition printf (items : list printed) : M (list printed) unit :=
  modify (fun so => so ++ items).

(** Lines 349-351: [wins += stats->wins_per_num_attempts[i]] over the
    cells of the array. *)
Definition sum_wins (stats : player_stats_t) : Z :=
  fold_left (fun wins c => int_wrap (wins + c)) (wins_per_num_attempts stats) 0.

(** Line 355: [100.0 * wins / games]. *)
Definition win_rate (wins games : Z) : float :=
  PrimFloat.div (PrimFloat.mul 100%float (double_of_int wins)) (double_of_int games).

(** Lines 361-364: the bar of one row. *)
Definition print_bar (c : Z) : M (list printed) unit :=
  for_loop 1 (Z.to_nat c) (fun j =>
    if Z.of_nat j =? c then printf [Text "* "] else printf [Text "*"]).

Definition print_stats (stats : player_stats_t) : M (list printed) unit :=
  (let wins := sum_wins stats in
   let size := length (wins_per_num_attempts stats) in
   let games := int_wrap (wins + num_missed_words stats) in
   printf [Text "Played: "; Int games; Text newline] ;;
   let winRate := win_rate wins games in
   printf [Text "Win %: "; Double winRate; Text "%"; Text newline; Text newline] ;;
   printf [Text "Guess distribution:"; Text newline] ;;
   for_loop 0 size (fun i =>
     printf [Int (Z.of_nat i + 1); Text ": "] ;;
     let* c := load (wins_per_num_attempts stats) i in
     print_bar c ;;
     printf [Int c; Text newline]))%M.

(** ** The feedback algorithm as the specification words it *)

Inductive LetterVerdict : Type := Correct | Present | Absent.

Definition verdict_code (v : LetterVerdict) : Z :=
  match v with
  | Correct => LR_IN_PLACE
  | Present => LR_WRONG_PLACE
  | Absent => LR_INCORRECT
  end.

(** Pass 1: the positions where the guess has the letter of the secret;
    they are Correct, and their secret positions are consumed. *)
Definition exact_matches (secret guess : list ascii) : list bool :=
  zip_with Ascii.eqb guess secret.

(** The leftmost position of the secret that is not consumed and holds
    the letter [c]. *)
Fixpoint leftmost_unconsumed (secret : list ascii) (consumed : list bool) (c : ascii)
  : option nat :=
  match secret, consumed with
  | s :: secret', u :: consumed' =>
      if negb u && Ascii.eqb s c then Some 0%nat
      else Datatypes.S <$> leftmost_unconsumed secret' consumed' c
  | _, _ => None
  end.

(** Pass 2 over the guess positions from the left; each comes with its
    letter and whether pass 1 found it Correct.  The answer is the
    verdicts of these positions and the consumed positions at the end. *)
Fixpoint misplaced_matches (secret : list ascii) (consumed : list bool)
    (positions : list (ascii * bool)) : list LetterVerdict * list bool :=
  match positions with
  | [] => ([], consumed)
  | (_, true) :: rest =>
      let '(vs, final) := misplaced_matches secret consumed rest in
      (Correct :: vs, final)
  | (g, false) :: rest =>
      match leftmost_unconsumed secret consumed g with
      | Some j =>
          let '(vs, final) := misplaced_matches secret (<[j:=true]> consumed) rest in
          (Present :: vs, final)
      | None =>
          let '(vs, final) := misplaced_matches secret consumed rest in
          (Absent :: vs, final)
      end
  end.

Record FeedbackResult : Type := {
  verdicts : list LetterVerdict;
  consumed_positions : list bool;
  fully_correct : bool;
}.

Definition is_correct (v : LetterVerdict) : bool :=
  match v with Correct => true | _ => false end.

Definition compare (secret guess : list ascii) : FeedbackResult :=
  let exact := exact_matches secret guess in
  let '(vs, final) := misplaced_matches secret exact (zip guess exact) in
  {| verdicts := vs; consumed_positions := final; fully_correct := forallb is_correct vs |}.

(** The scratch copy that stands for a set of consumed positions. *)
Definition marked_copy (secret : list ascii) (consumed : list bool) : list ascii :=
  zip_with (fun s (u : bool) => if u then consumed_mark else s) secret consumed.

(** ** Counting verdicts and letters *)

(** A verdict that is Correct or Present. *)
Definition is_match (r : Z) : bool := (r =? LR_IN_PLACE) || (r =? LR_WRONG_PLACE).

(** The positions whose guess letter is [L] and whose verdict is
    Correct or Present. *)
Fixpoint count_matches (L : ascii) (attempt : list ascii) (result : list Z) : nat :=
  match attempt, result with
  | a :: attempt', r :: result' =>
      ((if Ascii.eqb a L && is_match r then 1 else 0) + count_matches L attempt' result')%nat
  | _, _ => 0%nat
  end.

(** The positions whose verdict is Correct or Present. *)
Definition matches (result : list Z) : nat := length (List.filter is_match result).

(** The occurrences of the letter [L] in a word. *)
Fixpoint occurrences (L : ascii) (w : list ascii) : nat :=
  match w with
  | [] => 0%nat
  | c :: w' => ((if Ascii.eqb c L then 1 else 0) + occurrences L w')%nat
  end.

(** ** load_stats *)

(** The value of the macro [EOF] of <stdio.h>. *)
Definition EOF : Z := -1.

(** What [load_stats] works on: the caller's stats, the numbers of
    [stats.txt] that are not read yet, the local [value] (which holds
    whatever it held when the function is entered) and standard
    output. *)
Record stats_reader : Type := StatsReader {
  sr_stats : player_stats_t;
  sr_stream : list Z;
  sr_value : Z;
  sr_stdout : list printed;
}.

(** [fopen(STATS_FILENAME, "r")] on a file that exists: the stream is at
    its first number.  The file is taken as a sequence of decimal
    numbers in the range of [int], which is what [save_stats] writes. *)
Definition open_stats (numbers : list Z) : M stats_reader unit :=
  modify (fun s => StatsReader (sr_stats s) numbers (sr_value s) (sr_stdout s)).

(** [fscanf(fh, "%d", &value)]: at the end of the file it returns [EOF]
    and stores nothing; else it stores the next number and returns 1.
    The number stored in [int value] is the number of the file when that
    is in the range of [int]; [numbers_in_range] is the part of this
    range from [EOF] upwards, whose numbers other than [EOF] also are
    the same number in a counter of either signedness. *)
Definition fscanf_d : M stats_reader Z :=
  fun s => match sr_stream s with
           | [] => (Ok EOF, s)
           | n :: rest => (Ok 1, StatsReader (sr_stats s) rest n (sr_stdout s))
           end.

Definition printf_reader (items : list printed) : M stats_reader unit :=
  modify (fun s => StatsReader (sr_stats s) (sr_stream s) (sr_value s) (sr_stdout s ++ items)).

(** [stats->wins_per_num_attempts[i] = v] *)
Definition set_win (i : nat) (v : Z) : M stats_reader unit :=
  (let* st := gets sr_stats in
   let* wins' := store (wins_per_num_attempts st) i v in
   modify (fun s => StatsReader {| wins_per_num_attempts := wins';
                                   num_missed_words := num_missed_words st |}
                                (sr_stream s) (sr_value s) (sr_stdout s)))%M.

(** [stats->num_missed_words = v] *)
Definition set_missed (v : Z) : M stats_reader unit :=
  modify (fun s => StatsReader {| wins_per_num_attempts := wins_per_num_attempts (sr_stats s);
                                  num_missed_words := v |}
                               (sr_stream s) (sr_value s) (sr_stdout s)).

Section LoadStats.

Variable MAX_NUM_ATTEMPTS : nat.

(** [file] is [None] when [stats.txt] cannot be opened. *)
Definition load_stats (file : option (list Z)) : M stats_reader unit :=
  match file with
  | None =>
      (for_loop 0 MAX_NUM_ATTEMPTS (fun i => set_win i 0) ;;
       set_missed 0)%M
  | Some numbers =>
      (open_stats numbers ;;
       printf_reader [Text "I shouldn't be running!"] ;;
       for_loop 0 MAX_NUM_ATTEMPTS (fun i =>
         fscanf_d ;;
         let* value := gets sr_value in
         set_win i (if negb (value =? EOF) then value else 0)) ;;
       fscanf_d ;;
       let* value := gets sr_value in
       set_missed (if negb (value =? EOF) then value else 0))%M
  end.

End LoadStats.

(** Numbers from [EOF] to [INT_MAX]: [int value] holds them, and those
    that [load_stats] stores in a counter, 0 to [INT_MAX], are the same
    number in an [int] and in an [unsigned int] counter. *)
Definition numbers_in_range (numbers : list Z) : Prop :=
  Forall (fun n => EOF <= n < 2 ^ 31) numbers.

(** The numbers that [load_stats] finds in [value] after each read of a
    file: the numbers of the file, then again and again the last of
    them (or what [value] held before, when the file has no number). *)
Definition values_read (numbers : list Z) (value0 : Z) (reads : nat) : list Z :=
  take reads (numbers ++ replicate reads (default value0 (last numbers))).

(** [value != EOF ? value : 0] *)
Definition unless_EOF (value : Z) : Z := if negb (value =? EOF) then value else 0.

(** ** Characters and C strings *)

(** [isspace] of the C locale: space, and the controls from tab to
    carriage return. *)
Definition isspace (c : ascii) : bool :=
  let n := nat_of_ascii c in (n =? 32)%nat || ((9 <=? n)%nat && (n <=? 13)%nat).

(** The C string that an array of characters holds: the characters
    before the first NUL. *)
Fixpoint c_str (buf : list ascii) : list ascii :=
  match buf with
  | [] => []
  | c :: rest => if Ascii.eqb c NUL then [] else c :: c_str rest
  end.

Definition LF : ascii := "010"%char.

(** ** fscanf with "%s" *)

(** White space before the word is skipped. *)
Fixpoint skip_space (text : list ascii) : list ascii :=
  match text with
  | [] => []
  | c :: rest => if isspace c then skip_space rest else text
  end.

(** The word is read up to the next white space, which stays in the
    stream, or up to the end of the file. *)
Fixpoint scan_word (text : list ascii) : list ascii * list ascii :=
  match text with
  | [] => ([], [])
  | c :: rest =>
      if isspace c then ([], text)
      else let '(w, rest') := scan_word rest in (c :: w, rest')
  end.

(** What a function that reads words from a file works on: the memory
    of the caller that it fills, the characters of the file that are not
    read yet, and the local array [word], as the C string it holds. *)
Record text_reader (T : Type) : Type := TextReader {
  tr_target : T;
  tr_stream : list ascii;
  tr_word : list ascii;
}.
Arguments TextReader {T} _ _ _.
Arguments tr_target {T} _.
Arguments tr_stream {T} _.
Arguments tr_word {T} _.

Definition open_text {T} (text : list ascii) : M (text_reader T) unit :=
  modify (fun s => TextReader (tr_target s) text (tr_word s)).

Definition set_target {T} (x : T) : M (text_reader T) unit :=
  modify (fun s => TextReader x (tr_stream s) (tr_word s)).

Section TextFiles.

Variable WORD_SIZE : nat.

(** [fscanf(fh, "%s", &word)] with [char word[WORD_SIZE + 1]]: [EOF] when
    the file has no word left; else the word and its NUL are stored in
    [word], and a word of more than [WORD_SIZE] characters is written
    past the end of the array. *)
Definition fscanf_s {T} : M (text_reader T) Z :=
  fun s =>
    match skip_space (tr_stream s) with
    | [] => (Ok EOF, TextReader (tr_target s) [] (tr_word s))
    | text =>
        let '(w, rest) := scan_word text in
        if (length w <=? WORD_SIZE)%nat
        then (Ok 1, TextReader (tr_target s) rest (c_str w))
        else (Fault (OutOfBounds (Z.of_nat (Datatypes.S WORD_SIZE))),
              TextReader (tr_target s) rest (tr_word s))
    end.

(** *** load_valid_words *)

(** Modelled from the spec: [MAX_VALID_WORDS] is a macro of [yorkle.h],
    the number of rows of [valid_words->words]. *)
Variable MAX_VALID_WORDS : nat.

(** Lines 40-47: the [while] loop.  Each round that does not leave the
    loop adds 1 to [word_count], and the loop leaves at the latest when
    [word_count] is [MAX_VALID_WORDS]; [rounds] bounds the rounds.  The
    characters of [word] and the NUL after them are copied to row
    [word_count], which then holds the string of [word]. *)
Fixpoint read_words (rounds : nat) (word_count : nat)
  : M (text_reader valid_word_list_t) nat :=
  match rounds with
  | O => ret word_count
  | Datatypes.S rounds' =>
      (let* r := fscanf_s in
       if r =? EOF then ret word_count
       else if (MAX_VALID_WORDS <=? word_count)%nat then ret word_count
       else
         let* word := gets tr_word in
         let* vw := gets tr_target in
         let* rows := store (words vw) word_count word in
         set_target {| words := rows; num_words := num_words vw |} ;;
         read_words rounds' (Datatypes.S word_count))%M
  end.

(** [file] is [None] when [words.txt] cannot be opened. *)
Definition load_valid_words (file : option (list ascii))
  : M (text_reader valid_word_list_t) Z :=
  match file with
  | None => ret 0
  | Some text =>
      (open_text text ;;
       let* word_count := read_words (Datatypes.S MAX_VALID_WORDS) 0 in
       let* vw := gets tr_target in
       set_target {| words := words vw; num_words := Z.of_nat word_count |} ;;
       ret 1)%M
  end.

(** *** load_todays_answer *)

(** The target is the caller's array [answer], as the C string it
    holds; [fscanf]'s return value is not looked at, and the characters
    of [word] and the NUL after them are copied to [answer].  After a
    read that stored a word, [word] holds a string of at most
    [WORD_SIZE] characters; after a read that stored nothing it holds
    what it held at entry, and the copy stays inside [word] and [answer]
    when that is such a string ([holds_string]). *)
Definition load_todays_answer (file : option (list ascii))
  : M (text_reader (list ascii)) Z :=
  match file with
  | None => ret 0
  | Some text =>
      (open_text text ;;
       fscanf_s ;;
       let* word := gets tr_word in
       set_target word ;;
       ret 1)%M
  end.

End TextFiles.

(** An array [char word[WORD_SIZE + 1]] that holds a C string: its
    characters before the NUL, which are at most [WORD_SIZE]. *)
Definition holds_string (WORD_SIZE : nat) (w : list ascii) : Prop :=
  (length w <= WORD_SIZE)%nat /\ c_str w = w.

(** A file with one word on each line. *)
Definition lines (ws : list (list ascii)) : list ascii :=
  concat (map (fun w => w ++ [LF]) ws).

(** A word that [fscanf] reads whole into [word]: not empty, without
    white space or NUL, of at most [WORD_SIZE] characters. *)
Definition plain_word (w : list ascii) : bool :=
  negb (length w =? 0)%nat &&
  forallb (fun c => negb (isspace c) && negb (Ascii.eqb c NUL)) w.

Definition fits (WORD_SIZE : nat) (w : list ascii) : bool :=
  plain_word w && (length w <=? WORD_SIZE)%nat.

(** ** read_attempt *)

(** What [read_attempt] works on: standard input (the characters not
    read yet), standard output, and the caller's array [attempt]. *)
Record console : Type := Console {
  stdin : list ascii;
  stdout : list printed;
  attempt_buf : list ascii;
}.

(** [EOF] stored in a [char]: the byte 255, [char] being signed as on
    x86, where [current_char == EOF] then holds. *)
Definition EOF_char : ascii := ascii_of_nat 255.

(** [current_char = getchar()] *)
Definition getchar : M console ascii :=
  fun s => match stdin s with
           | [] => (Ok EOF_char, s)
           | c :: rest => (Ok c, Console rest (stdout s) (attempt_buf s))
           end.

Definition printf_console (items : list printed) : M console unit :=
  modify (fun s => Console (stdin s) (stdout s ++ items) (attempt_buf s)).

(** [attempt[i] = c] *)
Definition write_attempt (i : nat) (c : ascii) : M console unit :=
  (let* buf := gets attempt_buf in
   let* buf' := store buf i c in
   modify (fun s => Console (stdin s) (stdout s) buf'))%M.

(** Lines 138-146: the first loop, by recursion on the input that is
    left (each round reads one character).  It answers the lowercased
    first character that is not white space, or [None] at the end of the
    input, with the input that is left. *)
Fixpoint first_letter (input : list ascii) : option ascii * list ascii :=
  match input with
  | [] => (None, [])
  | c :: rest =>
      if Ascii.eqb c EOF_char then (None, rest)
      else if negb (isspace c) then (Some (tolower c), rest)
      else first_letter rest
  end.

Section ReadAttempt.

Variable WORD_SIZE : nat.

Definition read_attempt (num_attempt : Z) : M console Z :=
  (printf_console [Text "Attempt #"; Int (int_wrap num_attempt); Text ": "] ;;
   let* first := (fun s => let '(r, rest) := first_letter (stdin s) in
                           (Ok r, Console rest (stdout s) (attempt_buf s))) in
   match first with
   | None => ret 0
   | Some c =>
       write_attempt 0 c ;;
       let* stop := for_until 1 (WORD_SIZE - 1) (fun i =>
         let* current_char := getchar in
         if isspace current_char then ret (Some i)
         else write_attempt i (tolower current_char) ;; ret None) in
       let i := match stop with Some i => i | None => Nat.max 1 WORD_SIZE end in
       write_attempt i NUL ;;
       ret 1
   end)%M.

End ReadAttempt.

(** The character that the [k]-th [getchar] gives on an input: past the
    end of the input it is [EOF]. *)
Definition char_at (input : list ascii) (k : nat) : ascii :=
  default EOF_char (input !! k).

(** The prompt of [read_attempt]. *)
Definition prompt (num_attempt : Z) : list printed :=
  [Text "Attempt #"; Int (int_wrap num_attempt); Text ": "].

(** A word as [read_attempt] takes it from the input: it does not start
    with the byte of [EOF] and has no white space. *)
Definition token (tok : list ascii) : bool :=
  match tok with
  | [] => false
  | c :: _ => negb (Ascii.eqb c EOF_char)
  end && forallb (fun c => negb (isspace c)) tok.

(** ** print_attempt_result *)

Definition ESC : ascii := "027"%char.

(** [LETTER_FORMAT_IN_PLACE], [LETTER_FORMAT_WRONG_PLACE] and
    [LETTER_FORMAT_INCORRECT] with their [%c] filled in. *)
Definition LETTER_FORMAT_IN_PLACE (c : ascii) : string :=
  String ESC ("[42;30m" ++ String c (String ESC "[0m")).
Definition LETTER_FORMAT_WRONG_PLACE (c : ascii) : string :=
  String ESC ("[40;33m" ++ String c (String ESC "[0m")).
Definition LETTER_FORMAT_INCORRECT (c : ascii) : string :=
  String ESC ("[40;37m" ++ String c (String ESC "[0m")).

(** Lines 285-287: what is printed for one letter. *)
Definition letter_cell (r : Z) (c : ascii) : printed :=
  if r =? 0 then Text (LETTER_FORMAT_INCORRECT c)
  else if r =? 1 then Text (LETTER_FORMAT_WRONG_PLACE c)
  else Text (LETTER_FORMAT_IN_PLACE c).

Definition print_attempt_result (attempt : list ascii) (result : list Z)
  : M (list printed) unit :=
  (printf [Text "Result: "] ;;
   for_loop 0 (strlen attempt) (fun i =>
     let* r := load result i in
     let* c := load attempt i in
     printf [letter_cell r c]) ;;
   printf [Text newline])%M.

(** ** The report of print_stats *)




(** A word without the character that [compare_result] uses as its
    mark; every lowercase word is one. *)
Definition unmarked (w : list ascii) : bool :=
  forallb (fun c => negb (Ascii.eqb c consumed_mark)) w.

(** ** Reasoning rules of the machine *)

Lemma bind_ok {S A B} (m : M S A) (k : A -> M S B) s a s' :
  m s = (Ok a, s') -> bind m k s = k a s'.
Proof. intros H. unfold bind. now rewrite H. Qed.

Lemma bind_fault {S A B} (m : M S A) (k : A -> M S B) s f s' :
  m s = (Fault f, s') -> bind m k s = (Fault f, s').
Proof. intros H. unfold bind. now rewrite H. Qed.

Lemma load_ok {S A} (arr : list A) i x (s : S) :
  arr !! i = Some x -> load arr i s = (Ok x, s).
Proof. intros H. unfold load. now rewrite H. Qed.

Lemma store_ok {S A} (arr : list A) i x (s : S) :
  (i < length arr)%nat -> store arr i x s = (Ok (<[i:=x]> arr), s).
Proof. intros H. unfold store. now rewrite decide_True. Qed.

(** The invariant rule of a [for] loop that runs to its bound: a body
    that keeps [I] and never faults gives a loop that ends in [I] at the
    bound. *)
Lemma for_loop_invariant {S} (I : nat -> S -> Prop) (body : nat -> M S unit) :
  forall n lo,
  (forall i s, (lo <= i < lo + n)%nat -> I i s ->
     exists s', body i s = (Ok tt, s') /\ I (Datatypes.S i) s') ->
  forall s, I lo s ->
  exists s', for_loop lo n body s = (Ok tt, s') /\ I (lo + n)%nat s'.
Proof.
  induction n as [|n IH]; intros lo Hbody s Hs; simpl.
  - exists s. split; [reflexivity|]. now replace (lo + 0)%nat with lo by lia.
  - destruct (Hbody lo s) as (s1 & Hrun & Hs1); [lia|assumption|].
    rewrite (bind_ok _ _ _ _ _ Hrun).
    destruct (IH (Datatypes.S lo)) with (s := s1) as (s2 & Hrun2 & Hs2).
    + intros i s0 Hi. apply Hbody. lia.
    + assumption.
    + exists s2. split; [assumption|].
      now replace (lo + Datatypes.S n)%nat with (Datatypes.S lo + n)%nat by lia.
Qed.

(** The rule of a loop with an early exit: [I] holds while the loop goes
    on, [Q] when the body leaves it. *)
Lemma for_until_invariant {S A} (I : nat -> S -> Prop) (Q : A -> S -> Prop)
    (body : nat -> M S (option A)) :
  forall n lo,
  (forall j s, (lo <= j < lo + n)%nat -> I j s ->
     exists r s', body j s = (Ok r, s') /\
       match r with Some a => Q a s' | None => I (Datatypes.S j) s' end) ->
  forall s, I lo s ->
  exists r s', for_until lo n body s = (Ok r, s') /\
    match r with Some a => Q a s' | None => I (lo + n)%nat s' end.
Proof.
  induction n as [|n IH]; intros lo Hbody s Hs; simpl.
  - exists None, s. split; [reflexivity|]. now replace (lo + 0)%nat with lo by lia.
  - destruct (Hbody lo s) as (r & s1 & Hrun & Hpost); [lia|assumption|].
    rewrite (bind_ok _ _ _ _ _ Hrun).
    destruct r as [a|].
    + exists (Some a), s1. split; [reflexivity|assumption].
    + destruct (IH (Datatypes.S lo)) with (s := s1) as (r2 & s2 & Hrun2 & Hs2).
      * intros j s0 Hj. apply Hbody. lia.
      * assumption.
      * exists r2, s2. split; [assumption|].
        destruct r2; [assumption|].
        now replace (lo + Datatypes.S n)%nat with (Datatypes.S lo + n)%nat by lia.
Qed.

Lemma set_out_ok v fr :
  set_out v fr = (Ok tt, Frame v (todays_answer_copy fr) (result fr)).
Proof. reflexivity. Qed.

Lemma write_copy_ok i c fr :
  (i < length (todays_answer_copy fr))%nat ->
  write_copy i c fr = (Ok tt, Frame (out fr) (<[i:=c]> (todays_answer_copy fr)) (result fr)).
Proof.
  intros H. unfold write_copy, gets, modify, bind.
  now rewrite (store_ok _ _ _ _ H).
Qed.

Lemma write_result_ok i v fr :
  (i < length (result fr))%nat ->
  write_result i v fr = (Ok tt, Frame (out fr) (todays_answer_copy fr) (<[i:=v]> (result fr))).
Proof.
  intros H. unfold write_result, gets, modify, bind.
  now rewrite (store_ok _ _ _ _ H).
Qed.

Lemma read_copy_ok j c fr :
  todays_answer_copy fr !! j = Some c -> read_copy j fr = (Ok c, fr).
Proof. intros H. unfold read_copy, gets, bind. now apply load_ok. Qed.

Lemma read_result_ok i r fr :
  result fr !! i = Some r -> read_result i fr = (Ok r, fr).
Proof. intros H. unfold read_result, gets, bind. now apply load_ok. Qed.

(** ** compare_result: the two first loops *)

Section CompareResultFacts.

Variable WORD_SIZE : nat.
Variables todays_answer attempt : list ascii.
Hypothesis answer_length : length todays_answer = WORD_SIZE.
Hypothesis attempt_length : length attempt = WORD_SIZE.

Lemma copy_answer_run (result0 : list Z) :
  copy_answer WORD_SIZE todays_answer (entry_frame WORD_SIZE result0)
  = (Ok tt, Frame 1 todays_answer result0).
Proof.
  pose (I := fun (i : nat) (fr : frame) =>
    out fr = 1 /\ result fr = result0 /\ length (todays_answer_copy fr) = WORD_SIZE /\
    forall k, (k < i)%nat -> todays_answer_copy fr !! k = todays_answer !! k).
  destruct (for_loop_invariant I
    (fun i => bind (load todays_answer i) (fun c => write_copy i c)) WORD_SIZE 0%nat)
    with (s := entry_frame WORD_SIZE result0) as (fr & Hrun & Hout & Hres & Hlen & Hcp).
  - intros i fr Hi (Hout & Hres & Hlen & Hcp).
    destruct (lookup_lt_is_Some_2 todays_answer i) as [c Hc]; [lia|].
    rewrite (bind_ok _ _ _ _ _ (load_ok _ _ _ _ Hc)).
    rewrite write_copy_ok by lia.
    eexists. split; [reflexivity|]. unfold I; simpl.
    rewrite length_insert. repeat split; try assumption.
    intros k Hk. destruct (decide (k = i)) as [->|Hne].
    + rewrite list_lookup_insert_eq by lia. now rewrite Hc.
    + rewrite list_lookup_insert_ne by congruence. apply Hcp. lia.
  - unfold I, entry_frame; simpl. rewrite length_replicate.
    repeat split; try reflexivity. intros k Hk. lia.
  - unfold copy_answer. rewrite Hrun. f_equal.
    destruct fr as [o cp r]; simpl in *. subst o r. f_equal.
    apply list_eq. intros k. destruct (decide (k < WORD_SIZE)%nat).
    + apply Hcp. lia.
    + rewrite !lookup_ge_None_2 by lia. reflexivity.
Qed.

Lemma mark_in_place_run (result0 : list Z) :
  length result0 = WORD_SIZE ->
  mark_in_place WORD_SIZE todays_answer attempt (Frame 1 todays_answer result0)
  = (Ok tt, Frame (if bool_decide (attempt = todays_answer) then 1 else 0)
                  (marked_copy todays_answer (exact_matches todays_answer attempt))
                  (in_place_code <$> exact_matches todays_answer attempt)).
Proof.
  intros Hres0.
  set (exact := exact_matches todays_answer attempt).
  pose (I := fun (i : nat) (fr : frame) =>
    length (todays_answer_copy fr) = WORD_SIZE /\ length (result fr) = WORD_SIZE /\
    (forall k, (k < i)%nat ->
       todays_answer_copy fr !! k = marked_copy todays_answer exact !! k /\
       result fr !! k = (in_place_code <$> exact) !! k) /\
    (forall k, (i <= k)%nat -> todays_answer_copy fr !! k = todays_answer !! k) /\
    out fr = if bool_decide (take i attempt = take i todays_answer) then 1 else 0).
  destruct (for_loop_invariant I
    (fun i => bind (load attempt i) (fun a => bind (load todays_answer i) (fun t =>
       if Ascii.eqb a t
       then bind (write_result i LR_IN_PLACE) (fun _ => write_copy i consumed_mark)
       else bind (set_out 0) (fun _ => write_result i LR_INCORRECT))))
    WORD_SIZE 0%nat)
    with (s := Frame 1 todays_answer result0) as (fr & Hrun & Hlc & Hlr & Hlt & _ & Hout).
  - intros i fr Hi (Hlc & Hlr & Hlt & Hge & Hout).
    destruct (lookup_lt_is_Some_2 todays_answer i) as [t Ht]; [lia|].
    destruct (lookup_lt_is_Some_2 attempt i) as [a Ha]; [lia|].
    rewrite (bind_ok _ _ _ _ _ (load_ok _ _ _ _ Ha)).
    rewrite (bind_ok _ _ _ _ _ (load_ok _ _ _ _ Ht)).
    assert (Hex : exact !! i = Some (Ascii.eqb a t)).
    { unfold exact, exact_matches. rewrite lookup_zip_with, Ha, Ht. reflexivity. }
    assert (Hmk : marked_copy todays_answer exact !! i
                  = Some (if Ascii.eqb a t then consumed_mark else t)).
    { unfold marked_copy. rewrite lookup_zip_with, Ht, Hex. reflexivity. }
    assert (Hic : (in_place_code <$> exact) !! i = Some (in_place_code (Ascii.eqb a t))).
    { rewrite list_lookup_fmap, Hex. reflexivity. }
    destruct (Ascii.eqb_spec a t) as [Heq|Hne].
    + rewrite (bind_ok _ _ _ _ _ (write_result_ok i LR_IN_PLACE fr ltac:(lia))).
      rewrite write_copy_ok by (simpl; lia).
      eexists. split; [reflexivity|]. unfold I; simpl.
      rewrite (take_S_r _ _ _ Ha), (take_S_r _ _ _ Ht).
      rewrite !length_insert. repeat split; try assumption.
      * destruct (decide (k = i)) as [->|Hk].
        -- rewrite list_lookup_insert_eq by lia. now rewrite Hmk.
        -- rewrite list_lookup_insert_ne by congruence. apply Hlt. lia.
      * destruct (decide (k = i)) as [->|Hk].
        -- rewrite list_lookup_insert_eq by lia. now rewrite Hic.
        -- rewrite list_lookup_insert_ne by congruence. apply Hlt. lia.
      * intros k Hk. rewrite list_lookup_insert_ne by lia. apply Hge. lia.
      * rewrite Hout. subst t.
        destruct (decide (take i attempt = take i todays_answer)) as [E|E].
        -- rewrite !bool_decide_eq_true_2; [reflexivity| |assumption]. now rewrite E.
        -- rewrite !bool_decide_eq_false_2; [reflexivity| |assumption].
           intros E'. apply app_inj_tail in E'. tauto.
    + rewrite (bind_ok _ _ _ _ _ (set_out_ok _ _)).
      rewrite write_result_ok by (simpl; lia).
      eexists. split; [reflexivity|]. unfold I; simpl.
      rewrite (take_S_r _ _ _ Ha), (take_S_r _ _ _ Ht).
      rewrite !length_insert. repeat split; try assumption.
      * destruct (decide (k = i)) as [->|Hk].
        -- rewrite Hmk, <- Ht. apply Hge. lia.
        -- apply Hlt. lia.
      * destruct (decide (k = i)) as [->|Hk].
        -- rewrite list_lookup_insert_eq by lia. now rewrite Hic.
        -- rewrite list_lookup_insert_ne by congruence. apply Hlt. lia.
      * intros k Hk. apply Hge. lia.
      * rewrite bool_decide_eq_false_2; [reflexivity|].
        intros E'. apply app_inj_tail in E'. tauto.
  - unfold I; simpl. repeat split; try assumption; try lia.
  - unfold mark_in_place. rewrite Hrun. f_equal.
    destruct fr as [o cp r]; simpl in *.
    rewrite !take_ge in Hout by lia. subst o. f_equal.
    + apply list_eq. intros k. destruct (decide (k < WORD_SIZE)%nat).
      * apply Hlt. lia.
      * rewrite !lookup_ge_None_2; [reflexivity| |lia].
        unfold marked_copy, exact, exact_matches. rewrite !length_zip_with. lia.
    + apply list_eq. intros k. destruct (decide (k < WORD_SIZE)%nat).
      * apply Hlt. lia.
      * rewrite !lookup_ge_None_2; [reflexivity| |lia].
        rewrite length_fmap. unfold exact, exact_matches. rewrite length_zip_with. lia.
Qed.

(** ** compare_result: the scan for a letter in the wrong place *)

Lemma scan_copy_run (i : nat) (a : ascii) (fr : frame) :
  attempt !! i = Some a ->
  length (todays_answer_copy fr) = WORD_SIZE ->
  length (result fr) = WORD_SIZE ->
  exists r fr', scan_copy WORD_SIZE attempt i fr = (Ok r, fr') /\ scan_effect i a fr fr'.
Proof.
  intros Ha Hlc Hlr.
  assert (Hi : (i < WORD_SIZE)%nat) by (apply lookup_lt_Some in Ha; lia).
  destruct (lookup_lt_is_Some_2 (result fr) i) as [r Hr]; [lia|].
  pose (I := fun (j : nat) (s : frame) =>
    s = fr /\
    forall j', (j' < j)%nat -> todays_answer_copy fr !! j' = Some a -> r = 2).
  pose (Q := fun (_ : unit) (s : frame) =>
    exists j, r <> 2 /\ todays_answer_copy fr !! j = Some a /\
      (forall j', (j' < j)%nat -> todays_answer_copy fr !! j' <> Some a) /\
      s = Frame (out fr) (<[j:=consumed_mark]> (todays_answer_copy fr))
                (<[i:=LR_WRONG_PLACE]> (result fr))).
  destruct (for_until_invariant I Q
    (fun j => bind (load attempt i) (fun a => bind (read_copy j) (fun c =>
       if Ascii.eqb a c then
         bind (read_result i) (fun r =>
           if negb (r =? 2) then
             bind (write_result i LR_WRONG_PLACE) (fun _ =>
               bind (write_copy j consumed_mark) (fun _ => ret (Some tt)))
           else ret None)
       else ret None)))
    WORD_SIZE 0%nat) with (s := fr) as (res & fr' & Hrun & Hpost).
  - intros j s Hj (-> & Hleft).
    destruct (lookup_lt_is_Some_2 (todays_answer_copy fr) j) as [c Hc]; [lia|].
    rewrite (bind_ok _ _ _ _ _ (load_ok _ _ _ _ Ha)).
    rewrite (bind_ok _ _ _ _ _ (read_copy_ok _ _ _ Hc)).
    destruct (Ascii.eqb_spec a c) as [<-|Hne].
    + rewrite (bind_ok _ _ _ _ _ (read_result_ok _ _ _ Hr)).
      destruct (Z.eqb_spec r 2) as [Hr2|Hr2]; simpl.
      * exists None, fr. split; [reflexivity|]. split; [reflexivity|].
        intros j' Hj' _. assumption.
      * rewrite (bind_ok _ _ _ _ _ (write_result_ok i LR_WRONG_PLACE fr ltac:(lia))).
        erewrite bind_ok by (apply write_copy_ok; simpl; lia).
        eexists (Some tt), _. split; [reflexivity|]. exists j. simpl.
        repeat split; try assumption.
        intros j' Hj' Hc'. apply Hr2. eapply Hleft; eassumption.
    + exists None, fr. split; [reflexivity|]. split; [reflexivity|].
      intros j' Hj' Hc'. destruct (decide (j' = j)) as [->|Hjj].
      * congruence.
      * apply (Hleft j'); [lia|assumption].
  - split; [reflexivity|]. intros j' Hj'. lia.
  - exists res, fr'. split; [exact Hrun|]. destruct res as [[]|].
    + right. destruct Hpost as (j & Hr2 & Hc & Hleft & ->). exists j.
      repeat split; try assumption. rewrite Hr. congruence.
    + left. destruct Hpost as (-> & Hleft). split; [reflexivity|].
      intros j Hc. rewrite Hr. f_equal. apply (Hleft j); [|assumption].
      apply lookup_lt_Some in Hc. lia.
Qed.

Lemma scan_effect_frame i a fr fr' :
  scan_effect i a fr fr' ->
  out fr' = out fr /\
  length (todays_answer_copy fr') = length (todays_answer_copy fr) /\
  length (result fr') = length (result fr).
Proof.
  intros [[-> _]|(j & _ & _ & _ & ->)]; simpl; [tauto|].
  rewrite !length_insert. tauto.
Qed.

(** The rule of the third loop: a property kept by every scan holds at
    the end, and the loop does not fault. *)
Lemma mark_wrong_place_invariant (J : nat -> frame -> Prop) (fr : frame) :
  (forall i a s s', attempt !! i = Some a -> J i s -> scan_effect i a s s' ->
     J (Datatypes.S i) s') ->
  length (todays_answer_copy fr) = WORD_SIZE ->
  length (result fr) = WORD_SIZE ->
  J 0%nat fr ->
  exists fr', mark_wrong_place WORD_SIZE attempt fr = (Ok tt, fr') /\
    J WORD_SIZE fr' /\ out fr' = out fr /\
    length (todays_answer_copy fr') = WORD_SIZE /\ length (result fr') = WORD_SIZE.
Proof.
  intros Hstep Hlc Hlr HJ.
  pose (I := fun (i : nat) (s : frame) =>
    J i s /\ out s = out fr /\
    length (todays_answer_copy s) = WORD_SIZE /\ length (result s) = WORD_SIZE).
  destruct (for_loop_invariant I
    (fun i => bind (scan_copy WORD_SIZE attempt i) (fun _ => ret tt)) WORD_SIZE 0%nat)
    with (s := fr) as (fr' & Hrun & Hfin).
  - intros i s Hi (HJs & Hout & Hlcs & Hlrs).
    destruct (lookup_lt_is_Some_2 attempt i) as [a Ha]; [lia|].
    destruct (scan_copy_run i a s Ha Hlcs Hlrs) as (r & s' & Hrun & Heff).
    rewrite (bind_ok _ _ _ _ _ Hrun). exists s'. split; [reflexivity|].
    destruct (scan_effect_frame _ _ _ _ Heff) as (Ho & Hc & Hr).
    unfold I. repeat split; [eapply Hstep; eassumption|congruence..].
  - unfold I. tauto.
  - exists fr'. split; [exact Hrun|]. exact Hfin.
Qed.

(** The whole function: it returns without a fault, its value is
    decided by the second loop, and a property kept by every scan holds
    of the frame at exit. *)
Lemma compare_result_invariant (J : nat -> frame -> Prop) (result0 : list Z) :
  length result0 = WORD_SIZE ->
  (forall i a s s', attempt !! i = Some a -> J i s -> scan_effect i a s s' ->
     J (Datatypes.S i) s') ->
  J 0%nat (Frame (if bool_decide (attempt = todays_answer) then 1 else 0)
             (marked_copy todays_answer (exact_matches todays_answer attempt))
             (in_place_code <$> exact_matches todays_answer attempt)) ->
  exists fr, compare_result WORD_SIZE todays_answer attempt result0
             = (Ok (if bool_decide (attempt = todays_answer) then 1 else 0), fr) /\
    J WORD_SIZE fr /\
    out fr = (if bool_decide (attempt = todays_answer) then 1 else 0) /\
    length (todays_answer_copy fr) = WORD_SIZE /\ length (result fr) = WORD_SIZE.
Proof.
  intros Hres0 Hstep HJ.
  destruct (mark_wrong_place_invariant J
    (Frame (if bool_decide (attempt = todays_answer) then 1 else 0)
       (marked_copy todays_answer (exact_matches todays_answer attempt))
       (in_place_code <$> exact_matches todays_answer attempt)) Hstep)
    as (fr & Hrun & HJfr & Hout & Hlc & Hlr); [| |exact HJ|].
  - simpl. unfold marked_copy, exact_matches. rewrite !length_zip_with. lia.
  - simpl. rewrite length_fmap. unfold exact_matches. rewrite length_zip_with. lia.
  - exists fr. unfold compare_result, compare_result_body.
    rewrite (bind_ok _ _ _ _ _ (copy_answer_run result0)).
    rewrite (bind_ok _ _ _ _ _ (mark_in_place_run result0 Hres0)).
    rewrite (bind_ok _ _ _ _ _ Hrun).
    unfold gets. rewrite Hout. simpl. tauto.
Qed.

(** The array [result] is written in full: what the caller passes in it
    does not matter. *)
Lemma compare_result_overwrites (result0 result0' : list Z) :
  length result0 = WORD_SIZE -> length result0' = WORD_SIZE ->
  compare_result WORD_SIZE todays_answer attempt result0
  = compare_result WORD_SIZE todays_answer attempt result0'.
Proof.
  intros H H'. unfold compare_result, compare_result_body.
  rewrite (bind_ok _ _ _ _ _ (copy_answer_run result0)).
  rewrite (bind_ok _ _ _ _ _ (mark_in_place_run result0 H)).
  rewrite (bind_ok _ _ _ _ _ (copy_answer_run result0')).
  rewrite (bind_ok _ _ _ _ _ (mark_in_place_run result0' H')).
  reflexivity.
Qed.

Lemma exact_matches_lookup_true k :
  exact_matches todays_answer attempt !! k = Some true <->
  exists c, attempt !! k = Some c /\ todays_answer !! k = Some c.
Proof.
  unfold exact_matches. rewrite lookup_zip_with.
  destruct (attempt !! k) as [a|], (todays_answer !! k) as [t|]; simpl;
    try (split; [discriminate|intros (c & ? & ?); discriminate]).
  destruct (Ascii.eqb_spec a t) as [->|Hne].
  - split; [eauto|reflexivity].
  - split; [discriminate|intros (c & ? & ?); congruence].
Qed.

Lemma in_place_code_lookup k :
  (in_place_code <$> exact_matches todays_answer attempt) !! k = Some LR_IN_PLACE <->
  exact_matches todays_answer attempt !! k = Some true.
Proof.
  rewrite list_lookup_fmap.
  destruct (exact_matches todays_answer attempt !! k) as [[|]|]; simpl;
    split; congruence || discriminate.
Qed.

Lemma all_exact_matches :
  (forall k, (k < WORD_SIZE)%nat -> exact_matches todays_answer attempt !! k = Some true)
  <-> attempt = todays_answer.
Proof.
  split.
  - intros Hall. apply list_eq. intros k.
    destruct (decide (k < WORD_SIZE)%nat) as [Hk|Hk].
    + destruct (proj1 (exact_matches_lookup_true k) (Hall k Hk)) as (c & -> & ->).
      reflexivity.
    + rewrite !lookup_ge_None_2 by lia. reflexivity.
  - intros Heq k Hk. apply exact_matches_lookup_true.
    destruct (lookup_lt_is_Some_2 attempt k) as [c Hc]; [lia|].
    exists c. split; [assumption|]. now rewrite <- Heq.
Qed.

End CompareResultFacts.

(** ** compare_result: the verdicts are defined, the return value *)

(** C10: on inputs of [WORD_SIZE] letters, [compare_result] returns
    without a fault and leaves in each of the [WORD_SIZE] cells of
    [result] one of LR_INCORRECT, LR_WRONG_PLACE, LR_IN_PLACE, whatever
    its return value, and whatever the cells held at entry. *)
Theorem compare_result_assigns_every_verdict
    (WORD_SIZE : nat) (todays_answer attempt : list ascii) (result0 : list Z) :
  length todays_answer = WORD_SIZE ->
  length attempt = WORD_SIZE ->
  length result0 = WORD_SIZE ->
  exists ret fr,
    compare_result WORD_SIZE todays_answer attempt result0 = (Ok ret, fr) /\
    length (result fr) = WORD_SIZE /\
    Forall (fun r => r = LR_INCORRECT \/ r = LR_WRONG_PLACE \/ r = LR_IN_PLACE) (result fr) /\
    forall result0', length result0' = WORD_SIZE ->
      compare_result WORD_SIZE todays_answer attempt result0' = (Ok ret, fr).
Proof.
  intros Ht Ha Hr.
  destruct (compare_result_invariant WORD_SIZE todays_answer attempt Ht Ha
    (fun _ fr => Forall (fun r => r = LR_INCORRECT \/ r = LR_WRONG_PLACE \/ r = LR_IN_PLACE)
                   (result fr)) result0 Hr)
    as (fr & Hrun & Hall & _ & _ & Hlr).
  - intros i a s s' _ Hs [[-> _]|(j & _ & _ & _ & ->)]; [assumption|]. simpl.
    apply Forall_insert; [assumption|]. tauto.
  - simpl. apply Forall_fmap, Forall_forall. intros [|] _; simpl; tauto.
  - eexists _, fr. repeat split; try eassumption.
    intros result0' Hr'. rewrite <- Hrun.
    now apply compare_result_overwrites.
Qed.

Lemma compare_result_assigns_every_verdict_witness :
  exists ret fr,
    compare_result 5 (word "blood") (word "boron") [7; 7; 7; 7; 7] = (Ok ret, fr) /\
    length (result fr) = 5%nat /\
    Forall (fun r => r = LR_INCORRECT \/ r = LR_WRONG_PLACE \/ r = LR_IN_PLACE) (result fr) /\
    forall result0', length result0' = 5%nat ->
      compare_result 5 (word "blood") (word "boron") result0' = (Ok ret, fr).
Proof.
  apply (compare_result_assigns_every_verdict 5 (word "blood") (word "boron") [7; 7; 7; 7; 7]);
    reflexivity.
Defined.

(** C4: for lowercase words of [WORD_SIZE] letters, [compare_result]
    returns a non-zero value exactly when the guess is the secret, which
    is exactly when every verdict is LR_IN_PLACE; comparing a word with
    itself gives 1 and LR_IN_PLACE everywhere. *)
Theorem compare_result_signals_full_match
    (WORD_SIZE : nat) (secret guess : list ascii) (result0 : list Z) :
  length secret = WORD_SIZE ->
  length guess = WORD_SIZE ->
  length result0 = WORD_SIZE ->
  lowercase secret = true ->
  lowercase guess = true ->
  exists ret fr,
    compare_result WORD_SIZE secret guess result0 = (Ok ret, fr) /\
    (ret <> 0 <-> guess = secret) /\
    (guess = secret <-> Forall (fun r => r = LR_IN_PLACE) (result fr)) /\
    (guess = secret -> ret = 1 /\ result fr = replicate WORD_SIZE LR_IN_PLACE).
Proof.
  intros Hs Hg Hr _ _.
  set (exact := exact_matches secret guess).
  destruct (compare_result_invariant WORD_SIZE secret guess Hs Hg
    (fun _ fr => forall k, result fr !! k = Some LR_IN_PLACE <->
                           (in_place_code <$> exact) !! k = Some LR_IN_PLACE) result0 Hr)
    as (fr & Hrun & Hsame & _ & _ & Hlr).
  - intros i a s s' Ha HJ [[-> _]|(j & Hne & _ & _ & ->)] k; [apply HJ|]. simpl.
    destruct (decide (k = i)) as [->|Hk].
    + rewrite <- HJ. split; [|intros E; contradiction].
      intros E. apply list_lookup_insert_Some in E.
      destruct E as [(_ & E & _)|(E & _)]; [discriminate|congruence].
    + rewrite list_lookup_insert_ne by congruence. apply HJ.
  - intros k. reflexivity.
  - assert (Hall : guess = secret <-> Forall (fun r => r = LR_IN_PLACE) (result fr)).
    { rewrite <- (all_exact_matches WORD_SIZE secret guess Hs Hg), Forall_lookup.
      split.
      - intros Hex k r Hk.
        assert (Hlt : (k < WORD_SIZE)%nat) by (apply lookup_lt_Some in Hk; lia).
        pose proof (proj2 (in_place_code_lookup secret guess k) (Hex k Hlt)) as Hc.
        apply Hsame in Hc. congruence.
      - intros Hres k Hk. apply in_place_code_lookup, Hsame.
        destruct (lookup_lt_is_Some_2 (result fr) k) as [r Hrk]; [lia|].
        rewrite Hrk. f_equal. eapply Hres, Hrk. }
    assert (Hret : (if bool_decide (guess = secret) then 1 else 0) <> 0 <-> guess = secret).
    { case_bool_decide; split; intros; congruence || lia || assumption. }
    eexists _, fr. split; [exact Hrun|]. split; [exact Hret|]. split; [exact Hall|].
    intros Heq. split.
    + now rewrite bool_decide_eq_true_2.
    + apply Hall in Heq. apply list_eq. intros k.
      destruct (decide (k < WORD_SIZE)%nat) as [Hk|Hk].
      * rewrite lookup_replicate_2 by lia.
        destruct (lookup_lt_is_Some_2 (result fr) k) as [r Hrk]; [lia|].
        rewrite Hrk. f_equal. rewrite Forall_lookup in Heq. eapply Heq, Hrk.
      * rewrite lookup_ge_None_2 by lia. symmetry. apply lookup_replicate_None. lia.
Qed.

Lemma compare_result_signals_full_match_witness :
  exists ret fr,
    compare_result 5 (word "bread") (word "erase") [0; 0; 0; 0; 0] = (Ok ret, fr) /\
    (ret <> 0 <-> word "erase" = word "bread") /\
    (word "erase" = word "bread" <-> Forall (fun r => r = LR_IN_PLACE) (result fr)) /\
    (word "erase" = word "bread" -> ret = 1 /\ result fr = replicate 5 LR_IN_PLACE).
Proof.
  apply (compare_result_signals_full_match 5 (word "bread") (word "erase") [0; 0; 0; 0; 0]);
    reflexivity.
Defined.

(** ** compare_result: no letter is matched more often than the secret has it *)

Lemma is_lower_not_mark c : is_lower c = true -> c <> consumed_mark.
Proof. intros H ->. vm_compute in H. discriminate. Qed.

Lemma matches_le_length (result : list Z) : (matches result <= length result)%nat.
Proof.
  unfold matches. induction result as [|r result IH]; simpl; [lia|].
  destruct (is_match r); simpl; lia.
Qed.

Lemma count_matches_absent L (attempt : list ascii) (result : list Z) :
  Forall (fun c => c <> L) attempt -> count_matches L attempt result = 0%nat.
Proof.
  intros Hall. revert result.
  induction Hall as [|a attempt Ha _ IH]; intros [|r result]; simpl; try reflexivity.
  rewrite IH. now destruct (Ascii.eqb_spec a L).
Qed.

(** Writing one verdict adds at most one match, of the letter guessed
    at that position. *)
Lemma count_matches_insert L (attempt : list ascii) (result : list Z) i a v :
  attempt !! i = Some a ->
  (count_matches L attempt (<[i:=v]> result)
   <= count_matches L attempt result + (if Ascii.eqb a L then 1 else 0))%nat.
Proof.
  revert i result.
  induction attempt as [|a0 attempt IH]; intros [|i] [|r result] Ha; simpl in *;
    try discriminate; try lia.
  - injection Ha as ->.
    destruct (Ascii.eqb a L), (is_match v), (is_match r); simpl; lia.
  - specialize (IH i result Ha). lia.
Qed.

(** Overwriting a cell of the copy with another character removes one
    occurrence of the letter it held. *)
Lemma occurrences_insert L (cp : list ascii) j a m :
  m <> L ->
  cp !! j = Some a ->
  (occurrences L (<[j:=m]> cp) + (if Ascii.eqb a L then 1 else 0)
   = occurrences L cp)%nat.
Proof.
  intros HL. revert j.
  induction cp as [|c cp IH]; intros [|j] Hj; simpl in *; try discriminate.
  - injection Hj as ->.
    destruct (Ascii.eqb_spec m L) as [E|_]; [congruence|].
    destruct (Ascii.eqb a L); lia.
  - specialize (IH j Hj). lia.
Qed.

(** After the second loop every match stands for a consumed cell. *)
Lemma in_place_matches_bounded L m (todays_answer attempt : list ascii) :
  m <> L ->
  (count_matches L attempt (in_place_code <$> zip_with Ascii.eqb attempt todays_answer)
   + occurrences L (zip_with (fun s (u : bool) => if u then m else s) todays_answer
                      (zip_with Ascii.eqb attempt todays_answer))
   <= occurrences L todays_answer)%nat.
Proof.
  intros HL. revert todays_answer. unfold fmap.
  induction attempt as [|a attempt IH]; intros [|t todays_answer]; simpl; try lia.
  specialize (IH todays_answer).
  destruct (Ascii.eqb_spec a t) as [->|Hat]; simpl.
  - destruct (Ascii.eqb_spec m L) as [E|_]; [congruence|].
    destruct (Ascii.eqb t L); simpl; lia.
  - rewrite andb_false_r. simpl. lia.
Qed.

(** C1: for lowercase words of [WORD_SIZE] letters, the verdicts of
    [compare_result] have at most [WORD_SIZE] positions marked
    LR_IN_PLACE or LR_WRONG_PLACE, and for every letter [L] the marked
    positions whose guess letter is [L] are no more than the occurrences
    of [L] in the secret. *)
Theorem compare_result_matches_bounded
    (WORD_SIZE : nat) (secret guess : list ascii) (result0 : list Z) :
  length secret = WORD_SIZE ->
  length guess = WORD_SIZE ->
  length result0 = WORD_SIZE ->
  lowercase secret = true ->
  lowercase guess = true ->
  exists ret fr,
    compare_result WORD_SIZE secret guess result0 = (Ok ret, fr) /\
    (matches (result fr) <= WORD_SIZE)%nat /\
    forall L, (count_matches L guess (result fr) <= occurrences L secret)%nat.
Proof.
  intros Hs Hg Hr _ Hlow.
  destruct (compare_result_invariant WORD_SIZE secret guess Hs Hg
    (fun _ fr => forall L, L <> consumed_mark ->
       (count_matches L guess (result fr) + occurrences L (todays_answer_copy fr)
        <= occurrences L secret)%nat) result0 Hr)
    as (fr & Hrun & Hcount & _ & _ & Hlr).
  - intros i a s s' Ha HJ [[-> _]|(j & _ & Hj & _ & ->)] L HL; [now apply HJ|]. simpl.
    pose proof (count_matches_insert L guess (result s) i a LR_WRONG_PLACE Ha).
    pose proof (occurrences_insert L (todays_answer_copy s) j a consumed_mark
                  (not_eq_sym HL) Hj).
    specialize (HJ L HL). lia.
  - intros L HL. simpl. apply in_place_matches_bounded. congruence.
  - eexists _, fr. split; [exact Hrun|]. split.
    + rewrite <- Hlr. apply matches_le_length.
    + intros L. destruct (decide (L = consumed_mark)) as [->|HL].
      * rewrite count_matches_absent; [lia|].
        unfold lowercase in Hlow. rewrite forallb_forall in Hlow.
        apply Forall_forall. intros c Hc. apply is_lower_not_mark, Hlow.
        now apply list_elem_of_In.
      * specialize (Hcount L HL). lia.
Qed.

Lemma compare_result_matches_bounded_witness :
  exists ret fr,
    compare_result 5 (word "bread") (word "erase") [0; 0; 0; 0; 0] = (Ok ret, fr) /\
    (matches (result fr) <= 5)%nat /\
    forall L, (count_matches L (word "erase") (result fr) <= occurrences L (word "bread"))%nat.
Proof.
  apply (compare_result_matches_bounded 5 (word "bread") (word "erase") [0; 0; 0; 0; 0]);
    reflexivity.
Defined.

(** ** compare_result and the two-pass algorithm *)

Lemma leftmost_unconsumed_Some (secret : list ascii) (consumed : list bool) c j :
  leftmost_unconsumed secret consumed c = Some j ->
  secret !! j = Some c /\ consumed !! j = Some false /\
  forall j', (j' < j)%nat -> ~ (secret !! j' = Some c /\ consumed !! j' = Some false).
Proof.
  revert consumed j.
  induction secret as [|s secret IH]; intros [|u consumed] j H; simpl in H;
    try discriminate.
  destruct u; simpl in H.
  - destruct (leftmost_unconsumed secret consumed c) as [j0|] eqn:E; [|discriminate].
    injection H as <-. destruct (IH consumed j0 E) as (Hs & Hc & Hleft).
    repeat split; try assumption.
    intros [|j'] Hj'; simpl; [intros [_ ?]; discriminate|]. apply Hleft. lia.
  - destruct (Ascii.eqb_spec s c) as [->|Hne].
    + injection H as <-. repeat split. intros j' Hj'. lia.
    + destruct (leftmost_unconsumed secret consumed c) as [j0|] eqn:E; [|discriminate].
      injection H as <-. destruct (IH consumed j0 E) as (Hs & Hc & Hleft).
      repeat split; try assumption.
      intros [|j'] Hj'; simpl; [intros [? _]; congruence|]. apply Hleft. lia.
Qed.

Lemma leftmost_unconsumed_None (secret : list ascii) (consumed : list bool) c :
  leftmost_unconsumed secret consumed c = None ->
  forall j, ~ (secret !! j = Some c /\ consumed !! j = Some false).
Proof.
  revert consumed.
  induction secret as [|s secret IH]; intros [|u consumed] H j; simpl in H;
    try (intros [Hs Hu]; rewrite lookup_nil in *; discriminate).
  destruct (leftmost_unconsumed secret consumed c) as [j0|] eqn:E.
  - destruct (negb u && Ascii.eqb s c); discriminate.
  - destruct j as [|j]; simpl; [|now apply IH].
    intros [Hs Hu]. injection Hs as ->. injection Hu as ->.
    rewrite Ascii.eqb_refl in H. discriminate.
Qed.

Lemma marked_copy_lookup (secret : list ascii) (consumed : list bool) j c :
  c <> consumed_mark ->
  marked_copy secret consumed !! j = Some c <->
  secret !! j = Some c /\ consumed !! j = Some false.
Proof.
  intros Hc. unfold marked_copy. rewrite lookup_zip_with.
  destruct (secret !! j) as [s|], (consumed !! j) as [[|]|]; simpl;
    split; try (intros [? ?]); try congruence; try discriminate.
  intros E. split; congruence.
Qed.

Lemma marked_copy_insert (secret : list ascii) (consumed : list bool) j :
  <[j:=consumed_mark]> (marked_copy secret consumed)
  = marked_copy secret (<[j:=true]> consumed).
Proof.
  unfold marked_copy. revert consumed j.
  induction secret as [|s secret IH]; intros [|u consumed] [|j]; simpl;
    try reflexivity.
  f_equal. apply IH.
Qed.

Lemma misplaced_matches_app (secret : list ascii) (consumed : list bool)
    (l1 l2 : list (ascii * bool)) :
  misplaced_matches secret consumed (l1 ++ l2)
  = let '(v1, c1) := misplaced_matches secret consumed l1 in
    let '(v2, c2) := misplaced_matches secret c1 l2 in
    (v1 ++ v2, c2).
Proof.
  revert consumed.
  induction l1 as [|[g b] l1 IH]; intros consumed; simpl.
  - now destruct (misplaced_matches secret consumed l2).
  - destruct b.
    + rewrite IH. destruct (misplaced_matches secret consumed l1) as [v1 c1].
      now destruct (misplaced_matches secret c1 l2).
    + destruct (leftmost_unconsumed secret consumed g) as [j|]; rewrite IH.
      * destruct (misplaced_matches secret (<[j:=true]> consumed) l1) as [v1 c1].
        now destruct (misplaced_matches secret c1 l2).
      * destruct (misplaced_matches secret consumed l1) as [v1 c1].
        now destruct (misplaced_matches secret c1 l2).
Qed.

Lemma misplaced_matches_length (secret : list ascii) (consumed : list bool)
    (positions : list (ascii * bool)) :
  length (misplaced_matches secret consumed positions).1 = length positions.
Proof.
  revert consumed.
  induction positions as [|[g b] positions IH]; intros consumed; simpl; [reflexivity|].
  destruct b.
  - specialize (IH consumed).
    destruct (misplaced_matches secret consumed positions). simpl in *. lia.
  - destruct (leftmost_unconsumed secret consumed g) as [j|].
    + specialize (IH (<[j:=true]> consumed)).
      destruct (misplaced_matches secret (<[j:=true]> consumed) positions). simpl in *. lia.
    + specialize (IH consumed).
      destruct (misplaced_matches secret consumed positions). simpl in *. lia.
Qed.

(** The verdicts are all Correct exactly when pass 1 found every
    position Correct. *)
Lemma misplaced_matches_all_correct (secret : list ascii) (consumed : list bool)
    (positions : list (ascii * bool)) :
  forallb is_correct (misplaced_matches secret consumed positions).1
  = forallb snd positions.
Proof.
  revert consumed.
  induction positions as [|[g b] positions IH]; intros consumed; simpl; [reflexivity|].
  destruct b.
  - specialize (IH consumed).
    destruct (misplaced_matches secret consumed positions). simpl in *. assumption.
  - destruct (leftmost_unconsumed secret consumed g) as [j|].
    + now destruct (misplaced_matches secret (<[j:=true]> consumed) positions).
    + now destruct (misplaced_matches secret consumed positions).
Qed.

Lemma exact_matches_all (secret guess : list ascii) :
  length guess = length secret ->
  forallb snd (zip guess (exact_matches secret guess)) = bool_decide (guess = secret).
Proof.
  revert secret.
  induction guess as [|g guess IH]; intros [|s secret] Hlen; simpl in Hlen;
    try discriminate; [reflexivity|].
  unfold exact_matches in *. simpl. rewrite IH by lia.
  destruct (Ascii.eqb_spec g s) as [->|Hne]; simpl.
  - destruct (decide (guess = secret)) as [->|Hne].
    + now rewrite !bool_decide_eq_true_2.
    + rewrite !bool_decide_eq_false_2; congruence.
  - rewrite bool_decide_eq_false_2; congruence.
Qed.

Lemma fully_correct_compare (secret guess : list ascii) :
  length guess = length secret ->
  fully_correct (compare secret guess) = bool_decide (guess = secret).
Proof.
  intros Hlen. unfold compare.
  pose proof (misplaced_matches_all_correct secret (exact_matches secret guess)
                (zip guess (exact_matches secret guess))) as H.
  destruct (misplaced_matches secret (exact_matches secret guess)
              (zip guess (exact_matches secret guess))) as [vs final].
  simpl in *. rewrite H. now apply exact_matches_all.
Qed.

Lemma lowercase_lookup (w : list ascii) i c :
  lowercase w = true -> w !! i = Some c -> c <> consumed_mark.
Proof.
  intros Hlow Hc. apply is_lower_not_mark.
  unfold lowercase in Hlow. rewrite forallb_forall in Hlow.
  apply Hlow, list_elem_of_In, list_elem_of_lookup. eauto.
Qed.

(** C3: for lowercase words of [WORD_SIZE] letters, [compare_result]
    computes the two-pass algorithm [compare]: its verdicts are those of
    pass 1 (exact matches are Correct and consumed) followed by pass 2
    (from the left, a position that is not Correct is Present and
    consumes the leftmost unconsumed secret position with its letter,
    or is Absent when there is none); its scratch copy at exit marks
    exactly the consumed positions, and its value tells whether every
    verdict is Correct. *)
Theorem compare_result_two_pass
    (WORD_SIZE : nat) (secret guess : list ascii) (result0 : list Z) :
  length secret = WORD_SIZE ->
  length guess = WORD_SIZE ->
  length result0 = WORD_SIZE ->
  lowercase secret = true ->
  lowercase guess = true ->
  compare_result WORD_SIZE secret guess result0
  = (Ok (if fully_correct (compare secret guess) then 1 else 0),
     Frame (if fully_correct (compare secret guess) then 1 else 0)
           (marked_copy secret (consumed_positions (compare secret guess)))
           (verdict_code <$> verdicts (compare secret guess))).
Proof.
  intros Hs Hg Hr _ Hlow.
  set (exact := exact_matches secret guess).
  set (positions := zip guess exact).
  set (result1 := in_place_code <$> exact).
  assert (Hlex : length exact = WORD_SIZE).
  { unfold exact, exact_matches. rewrite length_zip_with. lia. }
  assert (Hlpos : length positions = WORD_SIZE).
  { unfold positions. rewrite length_zip_with. lia. }
  destruct (compare_result_invariant WORD_SIZE secret guess Hs Hg
    (fun i fr =>
       result fr = (verdict_code <$> (misplaced_matches secret exact (take i positions)).1)
                   ++ drop i result1 /\
       todays_answer_copy fr
       = marked_copy secret (misplaced_matches secret exact (take i positions)).2)
    result0 Hr) as (fr & Hrun & [HJr HJc] & Hout & _ & _).
  - intros i a s s' Ha [HJr HJc] Heff.
    assert (Hi : (i < WORD_SIZE)%nat) by (apply lookup_lt_Some in Ha; lia).
    assert (Hmark : a <> consumed_mark) by (eapply lowercase_lookup; eassumption).
    destruct (lookup_lt_is_Some_2 secret i) as [t Ht]; [lia|].
    assert (Hex : exact !! i = Some (Ascii.eqb a t)).
    { unfold exact, exact_matches. rewrite lookup_zip_with, Ha, Ht. reflexivity. }
    assert (Hpos : positions !! i = Some (a, Ascii.eqb a t)).
    { unfold positions. rewrite lookup_zip_with, Ha, Hex. reflexivity. }
    assert (Hr1 : result1 !! i = Some (in_place_code (Ascii.eqb a t))).
    { unfold result1. rewrite list_lookup_fmap, Hex. reflexivity. }
    rewrite (take_S_r _ _ _ Hpos), misplaced_matches_app.
    pose proof (misplaced_matches_length secret exact (take i positions)) as Hlv.
    rewrite length_take, Hlpos in Hlv.
    destruct (misplaced_matches secret exact (take i positions)) as [v1 c1].
    simpl in HJr, HJc, Hlv.
    assert (Hlv' : length (verdict_code <$> v1) = i) by (rewrite length_fmap; lia).
    rewrite (drop_S _ _ _ Hr1) in HJr.
    assert (Hri : result s !! i = Some (in_place_code (Ascii.eqb a t))).
    { rewrite HJr, lookup_app_r by lia. rewrite Hlv', Nat.sub_diag. reflexivity. }
    destruct (Ascii.eqb a t); simpl in Hri |- *.
    + destruct Heff as [[-> _]|(j & Hne & _)]; [|contradiction].
      simpl. split; [|assumption].
      rewrite HJr, fmap_app, <- app_assoc. reflexivity.
    + destruct Heff as [[-> Hnone]|(j & Hne & Hj & Hleft & ->)].
      * destruct (leftmost_unconsumed secret c1 a) as [j0|] eqn:El.
        -- apply leftmost_unconsumed_Some in El. destruct El as (Hsj & Hcj & _).
           assert (Hcp : todays_answer_copy s !! j0 = Some a).
           { rewrite HJc. apply marked_copy_lookup; auto. }
           apply Hnone in Hcp. rewrite Hri in Hcp. discriminate.
        -- simpl. split; [|assumption].
           rewrite HJr, fmap_app, <- app_assoc. reflexivity.
      * rewrite HJc in Hj. apply (marked_copy_lookup _ _ _ _ Hmark) in Hj.
        destruct (leftmost_unconsumed secret c1 a) as [j0|] eqn:El.
        -- apply leftmost_unconsumed_Some in El. destruct El as (Hsj & Hcj & Hmin).
           assert (j0 = j) as ->.
           { destruct (Nat.lt_trichotomy j0 j) as [Hlt|[Heq|Hgt]]; [|assumption|].
             - exfalso. apply (Hleft j0 Hlt). rewrite HJc.
               apply marked_copy_lookup; auto.
             - exfalso. apply (Hmin j Hgt). assumption. }
           simpl. split.
           ++ rewrite HJr, fmap_app, <- app_assoc.
              rewrite insert_app_r_alt by lia. rewrite Hlv', Nat.sub_diag. reflexivity.
           ++ rewrite HJc. apply marked_copy_insert.
        -- exfalso. eapply leftmost_unconsumed_None; eassumption.
  - simpl. split; reflexivity.
  - rewrite <- Hlpos, take_ge in HJr, HJc by lia.
    rewrite drop_ge, app_nil_r in HJr by (unfold result1; rewrite length_fmap; lia).
    rewrite Hrun. rewrite fully_correct_compare by lia.
    unfold compare. fold exact. fold positions.
    destruct (misplaced_matches secret exact positions) as [vs final]. simpl in *.
    destruct fr as [o cp r]. simpl in *. subst o cp r. reflexivity.
Qed.

Lemma compare_result_two_pass_witness :
  compare_result 5 (word "bread") (word "erase") [0; 0; 0; 0; 0]
  = (Ok (if fully_correct (compare (word "bread") (word "erase")) then 1 else 0),
     Frame (if fully_correct (compare (word "bread") (word "erase")) then 1 else 0)
           (marked_copy (word "bread")
              (consumed_positions (compare (word "bread") (word "erase"))))
           (verdict_code <$> verdicts (compare (word "bread") (word "erase")))).
Proof.
  apply (compare_result_two_pass 5 (word "bread") (word "erase") [0; 0; 0; 0; 0]);
    reflexivity.
Defined.

(** C2: the two worked examples.  With secret "bread" the guess "erase"
    gets Present, Correct, Present, Absent, Absent; with secret "blood"
    the guess "boron" gets Correct, Present, Absent, Correct, Absent;
    both return 0. *)
Theorem compare_result_worked_examples (r0 r1 r2 r3 r4 : Z) :
  compare_result 5 (word "bread") (word "erase") [r0; r1; r2; r3; r4]
  = (Ok 0, Frame 0 (word "b!!!d")
             (verdict_code <$> [Present; Correct; Present; Absent; Absent]))
  /\
  compare_result 5 (word "blood") (word "boron") [r0; r1; r2; r3; r4]
  = (Ok 0, Frame 0 (word "!l!!d")
             (verdict_code <$> [Correct; Present; Absent; Correct; Absent])).
Proof. split; vm_compute; reflexivity. Qed.

(** The algorithm of the specification on the same examples. *)
Example compare_bread_erase :
  verdicts (compare (word "bread") (word "erase"))
  = [Present; Correct; Present; Absent; Absent].
Proof. reflexivity. Qed.

Example compare_blood_boron :
  verdicts (compare (word "blood") (word "boron"))
  = [Correct; Present; Absent; Correct; Absent].
Proof. reflexivity. Qed.

(** ** attempt_is_valid *)

Section AttemptIsValidFacts.

Variable valid_words : valid_word_list_t.
Hypothesis num_words_in_array :
  (Z.to_nat (num_words valid_words) <= length (words valid_words))%nat.

Lemma word_set_lookup (w : list ascii) :
  w ∈ word_set valid_words <->
  exists k, (k < Z.to_nat (num_words valid_words))%nat /\ words valid_words !! k = Some w.
Proof.
  unfold word_set. rewrite list_elem_of_lookup. split.
  - intros (k & Hk). apply lookup_take_Some in Hk. exists k. tauto.
  - intros (k & Hlt & Hk). exists k. apply lookup_take_Some. tauto.
Qed.

(** The search of lines 181-185: it answers [Some 1] exactly when the
    attempt is one of the listed words, and writes nothing. *)
Lemma search_words_run (attempt : list ascii) (err : list string) :
  exists found,
    for_until 0 (Z.to_nat (num_words valid_words)) (fun i =>
      bind (load (words valid_words) i) (fun w =>
        if strcmp_eq w attempt then ret (Some 1) else ret None)) err
    = (Ok found, err) /\
    match found with
    | Some v => v = 1 /\ attempt ∈ word_set valid_words
    | None => attempt ∉ word_set valid_words
    end.
Proof.
  pose (I := fun (j : nat) (s : list string) =>
    s = err /\ forall k, (k < j)%nat -> words valid_words !! k <> Some attempt).
  pose (Q := fun (v : Z) (s : list string) =>
    s = err /\ v = 1 /\ attempt ∈ word_set valid_words).
  destruct (for_until_invariant I Q
    (fun i => bind (load (words valid_words) i) (fun w =>
       if strcmp_eq w attempt then ret (Some 1) else ret None))
    (Z.to_nat (num_words valid_words)) 0%nat) with (s := err)
    as (found & err' & Hrun & Hpost).
  - intros j s Hj (-> & Hnot).
    destruct (lookup_lt_is_Some_2 (words valid_words) j) as [w Hw]; [lia|].
    rewrite (bind_ok _ _ _ _ _ (load_ok _ _ _ _ Hw)).
    unfold strcmp_eq. case_bool_decide as Heq.
    + exists (Some 1), err. split; [reflexivity|]. subst w.
      repeat split. apply word_set_lookup. exists j. split; [lia|assumption].
    + exists None, err. split; [reflexivity|]. split; [reflexivity|].
      intros k Hk. destruct (decide (k = j)) as [->|Hkj].
      * congruence.
      * apply Hnot. lia.
  - split; [reflexivity|]. intros k Hk. lia.
  - exists found. destruct found as [v|].
    + destruct Hpost as (-> & -> & Hin). split; [exact Hrun|]. tauto.
    + destruct Hpost as (-> & Hnot). split; [exact Hrun|].
      intros Hin. apply word_set_lookup in Hin. destruct Hin as (k & Hk & Hw).
      apply (Hnot k); [lia|assumption].
Qed.

End AttemptIsValidFacts.

(** C6, as the code has it: [attempt_is_valid] compares the attempt as
    it is given, without changing its case.  It returns 0 exactly when
    the length of the attempt is not [WORD_SIZE] or the attempt is not
    one of the listed words, the length being tested first (an attempt
    of another length is refused whether or not it is listed); both
    refusals write the same text to standard error and return the same
    0; an accepted attempt returns 1 and writes nothing. *)
Theorem attempt_is_valid_exact_membership
    (WORD_SIZE : nat) (valid_words : valid_word_list_t) (attempt : list ascii)
    (err : list string) :
  (Z.to_nat (num_words valid_words) <= length (words valid_words))%nat ->
  exists ret err',
    attempt_is_valid WORD_SIZE valid_words attempt err = (Ok ret, err') /\
    (ret = 0 <-> length attempt <> WORD_SIZE \/ attempt ∉ word_set valid_words) /\
    (length attempt <> WORD_SIZE -> ret = 0) /\
    (ret = 0 -> err' = err ++ [not_a_valid_word attempt]) /\
    (ret <> 0 -> ret = 1 /\ err' = err).
Proof.
  intros Hnum. unfold attempt_is_valid, strlen.
  destruct (Nat.eqb_spec (length attempt) WORD_SIZE) as [Hlen|Hlen]; simpl.
  - destruct (search_words_run valid_words Hnum attempt err) as (found & Hrun & Hpost).
    rewrite (bind_ok _ _ _ _ _ Hrun).
    destruct found as [v|].
    + destruct Hpost as (-> & Hin).
      exists 1, err. split; [reflexivity|].
      repeat split; try lia; try tauto.
    + exists 0, (err ++ [not_a_valid_word attempt]). split; [reflexivity|].
      repeat split; try lia; try tauto.
  - exists 0, (err ++ [not_a_valid_word attempt]). split; [reflexivity|].
    repeat split; try lia; try tauto.
Qed.

Lemma attempt_is_valid_exact_membership_witness :
  exists ret err',
    attempt_is_valid 5 {| words := [word "bread"; word "blood"]; num_words := 2 |}
      (word "blood") [] = (Ok ret, err') /\
    (ret = 0 <-> length (word "blood") <> 5%nat \/
       word "blood" ∉ word_set {| words := [word "bread"; word "blood"]; num_words := 2 |}) /\
    (length (word "blood") <> 5%nat -> ret = 0) /\
    (ret = 0 -> err' = [] ++ [not_a_valid_word (word "blood")]) /\
    (ret <> 0 -> ret = 1 /\ err' = []).
Proof.
  apply (attempt_is_valid_exact_membership 5
           {| words := [word "bread"; word "blood"]; num_words := 2 |} (word "blood") []).
  simpl. lia.
Defined.

(** C6 as stated fails: "BREAD" has [WORD_SIZE] letters and its
    lowercase form "bread" is listed, so [validate] accepts it and
    returns "bread", but [attempt_is_valid] returns 0. *)
Lemma attempt_is_valid_case_counterexample :
  validate 5 (word_set {| words := [word "bread"]; num_words := 1 |}) (word "BREAD")
  = inr (word "bread") /\
  attempt_is_valid 5 {| words := [word "bread"]; num_words := 1 |} (word "BREAD") []
  = (Ok 0, [not_a_valid_word (word "BREAD")]) /\
  ~ agrees_with_validate 5 {| words := [word "bread"]; num_words := 1 |} (word "BREAD").
Proof.
  assert (Hv : validate 5 (word_set {| words := [word "bread"]; num_words := 1 |})
                 (word "BREAD") = inr (word "bread")).
  { vm_compute. reflexivity. }
  assert (Hrun : attempt_is_valid 5 {| words := [word "bread"]; num_words := 1 |}
                   (word "BREAD") [] = (Ok 0, [not_a_valid_word (word "BREAD")])).
  { vm_compute. reflexivity. }
  split; [exact Hv|]. split; [exact Hrun|].
  unfold agrees_with_validate. rewrite Hv, Hrun. simpl.
  intros (ret & Hret & Hne). injection Hret as <-. contradiction.
Qed.

(** ** save_stats *)

(** What a computation leaves in the store, fault or not. *)
Lemma bind_store {S A B} (P : S -> Prop) (m : M S A) (k : A -> M S B) s :
  P (m s).2 -> (forall a s', P s' -> P (k a s').2) -> P (bind m k s).2.
Proof. unfold bind. destruct (m s) as [[a|f] s']; simpl; auto. Qed.

Lemma for_loop_store {S} (P : S -> Prop) (body : nat -> M S unit) :
  (forall i s, P s -> P (body i s).2) ->
  forall n lo s, P s -> P (for_loop lo n body s).2.
Proof.
  intros Hbody. induction n as [|n IH]; intros lo s Hs; simpl; [assumption|].
  apply bind_store; [now apply Hbody|]. intros _ s' Hs'. now apply IH.
Qed.

(** Closes a range condition on counters or numbers that are given. *)
Ltac in_range :=
  unfold counters_in_range, numbers_in_range, EOF; simpl;
  repeat apply Forall_cons_2; try apply Forall_nil_2; split; lia || reflexivity.

Lemma fprintf_u_store fh v w : stats (fprintf_u fh v w).2 = stats w.
Proof. now destruct fh. Qed.

Section SaveStatsFacts.

Variable MAX_NUM_ATTEMPTS : nat.

(** The write to the file never touches the counters. *)
Lemma write_stats_keeps_stats (w : world) :
  stats (write_stats MAX_NUM_ATTEMPTS w).2 = stats w.
Proof.
  unfold write_stats.
  apply (bind_store (fun s => stats s = stats w)).
  { unfold fopen_stats_w. now destruct (stats_writable w). }
  intros fh s Hs. apply bind_store.
  { apply for_loop_store; [|assumption]. clear s Hs. intros i s Hs.
    apply bind_store; [assumption|]. intros st s' Hs'.
    apply bind_store.
    - unfold load. now destruct (wins_per_num_attempts st !! i).
    - intros c s'' Hs''. now rewrite fprintf_u_store. }
  intros _ s1 Hs1. apply bind_store; [assumption|]. intros st s2 Hs2.
  apply bind_store; [now rewrite fprintf_u_store|]. intros _ s3 Hs3.
  apply bind_store; [now destruct fh|]. intros _ s4 Hs4. assumption.
Qed.

Lemma save_stats_stats (num_attempts : Z) (w : world) :
  stats (save_stats MAX_NUM_ATTEMPTS num_attempts w).2
  = stats (update_stats MAX_NUM_ATTEMPTS num_attempts w).2.
Proof.
  unfold save_stats, bind.
  destruct (update_stats MAX_NUM_ATTEMPTS num_attempts w) as [[[]|f] w']; simpl;
    [|reflexivity].
  apply write_stats_keeps_stats.
Qed.

Lemma update_stats_loss (num_attempts : Z) (w : world) :
  Z.of_nat MAX_NUM_ATTEMPTS < num_attempts ->
  update_stats MAX_NUM_ATTEMPTS num_attempts w
  = (Ok tt, World {| wins_per_num_attempts := wins_per_num_attempts (stats w);
                     num_missed_words := num_missed_words (stats w) + 1 |}
                  (stats_writable w) (stats_txt w)).
Proof.
  intros Hk. unfold update_stats, bind, gets.
  destruct (Z.gtb_spec num_attempts (Z.of_nat MAX_NUM_ATTEMPTS)); [reflexivity|lia].
Qed.

Lemma update_stats_win (num_attempts : Z) (w : world) :
  length (wins_per_num_attempts (stats w)) = MAX_NUM_ATTEMPTS ->
  1 <= num_attempts <= Z.of_nat MAX_NUM_ATTEMPTS ->
  num_attempts < UINT_MODULUS ->
  exists c,
    wins_per_num_attempts (stats w) !! Z.to_nat (num_attempts - 1) = Some c /\
    update_stats MAX_NUM_ATTEMPTS num_attempts w
    = (Ok tt, World {| wins_per_num_attempts :=
                         <[Z.to_nat (num_attempts - 1) := c + 1]>
                           (wins_per_num_attempts (stats w));
                       num_missed_words := num_missed_words (stats w) |}
                    (stats_writable w) (stats_txt w)).
Proof.
  intros Hlen Hk Hu.
  destruct (lookup_lt_is_Some_2 (wins_per_num_attempts (stats w))
              (Z.to_nat (num_attempts - 1))) as [c Hc]; [lia|].
  exists c. split; [assumption|].
  unfold update_stats, bind, gets.
  destruct (Z.gtb_spec num_attempts (Z.of_nat MAX_NUM_ATTEMPTS)); [lia|].
  assert (Hsub : uint_sub num_attempts 1 = num_attempts - 1).
  { unfold uint_sub. apply Z.mod_small. lia. }
  rewrite Hsub. unfold cell.
  destruct (Z.leb_spec 0 (num_attempts - 1)); [|lia].
  destruct (Z.ltb_spec (num_attempts - 1)
              (Z.of_nat (length (wins_per_num_attempts (stats w))))); [|lia].
  simpl. rewrite (load_ok _ _ _ _ Hc).
  rewrite store_ok by lia. reflexivity.
Qed.

(** With [num_attempts = 0] the index [num_attempts - 1] wraps to
    [UINT_MAX], outside the array. *)
Lemma update_stats_zero (w : world) :
  length (wins_per_num_attempts (stats w)) = MAX_NUM_ATTEMPTS ->
  Z.of_nat MAX_NUM_ATTEMPTS < UINT_MODULUS ->
  update_stats MAX_NUM_ATTEMPTS 0 w = (Fault (OutOfBounds (UINT_MODULUS - 1)), w).
Proof.
  intros Hlen Hmax. unfold update_stats, bind, gets.
  destruct (Z.gtb_spec 0 (Z.of_nat MAX_NUM_ATTEMPTS)); [lia|].
  change (uint_sub 0 1) with (UINT_MODULUS - 1). unfold cell.
  destruct (Z.ltb_spec (UINT_MODULUS - 1)
              (Z.of_nat (length (wins_per_num_attempts (stats w))))); [lia|].
  rewrite andb_false_r. reflexivity.
Qed.

(** When [stats.txt] opens, the counters are written in order and the
    function returns 1. *)
Lemma write_stats_writable (w : world) :
  length (wins_per_num_attempts (stats w)) = MAX_NUM_ATTEMPTS ->
  stats_writable w = true ->
  write_stats MAX_NUM_ATTEMPTS w
  = (Ok 1, World (stats w) true
             (wins_per_num_attempts (stats w) ++ [num_missed_words (stats w)])).
Proof.
  intros Hlen Hw. unfold write_stats.
  erewrite bind_ok by (unfold fopen_stats_w; rewrite Hw; reflexivity).
  pose (I := fun (i : nat) (s : world) =>
    s = World (stats w) true (take i (wins_per_num_attempts (stats w)))).
  destruct (for_loop_invariant I
    (fun i => bind (gets stats) (fun st =>
       bind (load (wins_per_num_attempts st) i) (fun c =>
         fprintf_u (Some stats_stream) c)))
    MAX_NUM_ATTEMPTS 0%nat) with (s := World (stats w) true [])
    as (s' & Hrun & Hs').
  - intros i s Hi ->.
    destruct (lookup_lt_is_Some_2 (wins_per_num_attempts (stats w)) i) as [c Hc]; [lia|].
    unfold gets at 1. unfold bind at 1. simpl.
    rewrite (bind_ok _ _ _ _ _ (load_ok _ _ _ _ Hc)).
    eexists. split; [reflexivity|]. unfold I. simpl.
    now rewrite (take_S_r _ _ _ Hc).
  - reflexivity.
  - rewrite (bind_ok _ _ _ _ _ Hrun). unfold I in Hs'. simpl in Hs'. subst s'.
    rewrite take_ge by lia. reflexivity.
Qed.

(** When [stats.txt] does not open, the first [fprintf] is on a NULL
    stream; no path of the function returns 0. *)
Lemma write_stats_unwritable (w : world) :
  length (wins_per_num_attempts (stats w)) = MAX_NUM_ATTEMPTS ->
  stats_writable w = false ->
  write_stats MAX_NUM_ATTEMPTS w = (Fault NullStream, w).
Proof.
  intros Hlen Hw. unfold write_stats.
  erewrite bind_ok by (unfold fopen_stats_w; rewrite Hw; reflexivity).
  destruct MAX_NUM_ATTEMPTS as [|n]; simpl.
  - reflexivity.
  - destruct (lookup_lt_is_Some_2 (wins_per_num_attempts (stats w)) 0) as [c Hc]; [lia|].
    unfold bind, gets. rewrite (load_ok _ _ _ _ Hc). reflexivity.
Qed.

End SaveStatsFacts.

Lemma bind_value {S A B} (Q : outcome B -> Prop) (m : M S A) (k : A -> M S B) s :
  (forall f, Q (Fault f)) -> (forall a s', Q (k a s').1) -> Q (bind m k s).1.
Proof. intros Hf Hk. unfold bind. destruct (m s) as [[a|f] s']; simpl; auto. Qed.

(** [save_stats] has one [return], of 1: it never returns 0. *)
Lemma save_stats_never_returns_zero (MAX_NUM_ATTEMPTS : nat) (num_attempts : Z) (w : world) :
  (save_stats MAX_NUM_ATTEMPTS num_attempts w).1 <> Ok 0.
Proof.
  unfold save_stats, write_stats.
  repeat (apply bind_value; [discriminate|intros ? ?]).
  discriminate.
Qed.

(** C7: for every stats value with [MAX_NUM_ATTEMPTS] win counters,
    each counter a count from 0 up to, not including, [INT_MAX] (so that
    [++] does not overflow it), [save_stats] with
    [1 <= num_attempts <= MAX_NUM_ATTEMPTS] adds 1 to the counter at
    index [num_attempts - 1] and changes no other counter; with
    [num_attempts > MAX_NUM_ATTEMPTS] it adds 1 to [num_missed_words]
    and changes no win counter.  This holds whether or not the file can
    be written. *)
Theorem save_stats_records_one_outcome
    (MAX_NUM_ATTEMPTS : nat) (num_attempts : Z) (w : world) :
  length (wins_per_num_attempts (stats w)) = MAX_NUM_ATTEMPTS ->
  counters_in_range (stats w) ->
  0 <= num_attempts < UINT_MODULUS ->
  (1 <= num_attempts <= Z.of_nat MAX_NUM_ATTEMPTS ->
   exists c,
     wins_per_num_attempts (stats w) !! Z.to_nat (num_attempts - 1) = Some c /\
     stats (save_stats MAX_NUM_ATTEMPTS num_attempts w).2
     = {| wins_per_num_attempts :=
            <[Z.to_nat (num_attempts - 1) := c + 1]> (wins_per_num_attempts (stats w));
          num_missed_words := num_missed_words (stats w) |})
  /\
  (Z.of_nat MAX_NUM_ATTEMPTS < num_attempts ->
   stats (save_stats MAX_NUM_ATTEMPTS num_attempts w).2
   = {| wins_per_num_attempts := wins_per_num_attempts (stats w);
        num_missed_words := num_missed_words (stats w) + 1 |}).
Proof.
  intros Hlen _ Hu. split.
  - intros Hk.
    destruct (update_stats_win MAX_NUM_ATTEMPTS num_attempts w Hlen Hk) as (c & Hc & Hrun);
      [lia|].
    exists c. split; [assumption|].
    rewrite save_stats_stats, Hrun. reflexivity.
  - intros Hk. rewrite save_stats_stats, update_stats_loss by assumption. reflexivity.
Qed.

Lemma save_stats_records_one_outcome_witness :
  stats (save_stats 6 3 (World (no_stats 6) true [])).2
  = {| wins_per_num_attempts := [0; 0; 1; 0; 0; 0]; num_missed_words := 0 |}
  /\
  stats (save_stats 6 7 (World (no_stats 6) false [])).2
  = {| wins_per_num_attempts := [0; 0; 0; 0; 0; 0]; num_missed_words := 1 |}.
Proof.
  split.
  - destruct (save_stats_records_one_outcome 6 3 (World (no_stats 6) true []))
      as [Hwin _]; [reflexivity|in_range|unfold UINT_MODULUS; lia|].
    destruct Hwin as (c & Hc & ->); [lia|].
    injection Hc as <-. reflexivity.
  - destruct (save_stats_records_one_outcome 6 7 (World (no_stats 6) false []))
      as [_ Hloss]; [reflexivity|in_range|unfold UINT_MODULUS; lia|].
    rewrite Hloss by (simpl; lia). reflexivity.
Defined.

(** C8, the code at a file that cannot be opened: the counters are
    updated, then [fprintf] is called on the NULL stream that [fopen]
    returned; the function does not return 0. *)
Theorem save_stats_unwritable_file (file : list Z) :
  save_stats 6 1 (World (no_stats 6) false file)
  = (Fault NullStream,
     World {| wins_per_num_attempts := [1; 0; 0; 0; 0; 0]; num_missed_words := 0 |}
           false file).
Proof. vm_compute. reflexivity. Qed.

(** C9, the code at [num_attempts = 0]: the win branch is taken and the
    index [num_attempts - 1] is [UINT_MAX], outside the 6 counters. *)
Theorem save_stats_zero_attempts (writable : bool) (file : list Z) :
  save_stats 6 0 (World (no_stats 6) writable file)
  = (Fault (OutOfBounds 4294967295), World (no_stats 6) writable file).
Proof. vm_compute. reflexivity. Qed.

(** ** print_stats *)

Lemma sum_wins_no_stats (MAX_NUM_ATTEMPTS : nat) : sum_wins (no_stats MAX_NUM_ATTEMPTS) = 0.
Proof.
  unfold sum_wins, no_stats. simpl.
  induction MAX_NUM_ATTEMPTS as [|n IH]; simpl; [reflexivity|].
  exact IH.
Qed.

(** C5, the code at stats without a game: the count of games printed is
    0, and the win rate printed is [100.0 * 0 / 0], not a number. *)
Theorem print_stats_no_games :
  is_nan (win_rate 0 0) = true /\
  print_stats (no_stats 6) []
  = (Ok tt,
     [Text "Played: "; Int 0; Text newline;
      Text "Win %: "; Double nan; Text "%"; Text newline; Text newline;
      Text "Guess distribution:"; Text newline;
      Int 1; Text ": "; Int 0; Text newline;
      Int 2; Text ": "; Int 0; Text newline;
      Int 3; Text ": "; Int 0; Text newline;
      Int 4; Text ": "; Int 0; Text newline;
      Int 5; Text ": "; Int 0; Text newline;
      Int 6; Text ": "; Int 0; Text newline]).
Proof. split; vm_compute; reflexivity. Qed.

(** ** compare_result: what each verdict means *)

Lemma count_matches_le_occurrences L (attempt : list ascii) (result : list Z) :
  (count_matches L attempt result <= occurrences L attempt)%nat.
Proof.
  revert result.
  induction attempt as [|a attempt IH]; intros [|r result]; simpl; try lia.
  specialize (IH result). destruct (Ascii.eqb a L), (is_match r); simpl; lia.
Qed.

Lemma count_matches_insert_exact L (attempt : list ascii) (result : list Z) i a r :
  attempt !! i = Some a ->
  result !! i = Some r ->
  is_match r = false ->
  count_matches L attempt (<[i:=LR_WRONG_PLACE]> result)
  = (count_matches L attempt result + (if Ascii.eqb a L then 1 else 0))%nat.
Proof.
  revert i result.
  induction attempt as [|a0 attempt IH]; intros [|i] [|r0 result] Ha Hr Hm; simpl in *;
    try discriminate.
  - injection Ha as ->. injection Hr as ->. rewrite Hm.
    destruct (Ascii.eqb a L); simpl; lia.
  - rewrite (IH i result Ha Hr Hm). lia.
Qed.

Lemma count_matches_positive L (attempt : list ascii) (result : list Z) i r :
  attempt !! i = Some L ->
  result !! i = Some r ->
  is_match r = true ->
  (1 <= count_matches L attempt result)%nat.
Proof.
  revert i result.
  induction attempt as [|a0 attempt IH]; intros [|i] [|r0 result] Ha Hr Hm; simpl in *;
    try discriminate.
  - injection Ha as ->. injection Hr as ->. rewrite Hm, Ascii.eqb_refl. simpl. lia.
  - specialize (IH i result Ha Hr Hm). lia.
Qed.

Lemma occurrences_none L (w : list ascii) :
  (forall j, w !! j <> Some L) -> occurrences L w = 0%nat.
Proof.
  induction w as [|c w IH]; intros Hno; simpl; [reflexivity|].
  destruct (Ascii.eqb_spec c L) as [->|_].
  - exfalso. now apply (Hno 0%nat).
  - rewrite IH; [reflexivity|]. intros j. apply (Hno (Datatypes.S j)).
Qed.

Lemma occurrences_positive L (w : list ascii) :
  (1 <= occurrences L w)%nat -> exists j, w !! j = Some L.
Proof.
  induction w as [|c w IH]; simpl; [lia|].
  destruct (Ascii.eqb_spec c L) as [->|_]; intros H.
  - now exists 0%nat.
  - destruct IH as [j Hj]; [lia|]. now exists (Datatypes.S j).
Qed.

(** Either some position with the letter [L] is LR_INCORRECT, or every
    position with the letter [L] is a match. *)
Lemma count_matches_dichotomy L (attempt : list ascii) (result : list Z) :
  length result = length attempt ->
  Forall (fun r => r = LR_INCORRECT \/ r = LR_WRONG_PLACE \/ r = LR_IN_PLACE) result ->
  (exists k, attempt !! k = Some L /\ result !! k = Some LR_INCORRECT) \/
  count_matches L attempt result = occurrences L attempt.
Proof.
  revert result.
  induction attempt as [|a attempt IH]; intros [|r result] Hlen Hall; simpl in *;
    try discriminate; [now right|].
  apply Forall_cons in Hall. destruct Hall as [Hr Hall].
  destruct (IH result) as [(k & Hk & Hrk)|Heq]; [lia|assumption| |].
  - left. now exists (Datatypes.S k).
  - destruct (Ascii.eqb_spec a L) as [->|_]; simpl; [|now right].
    destruct Hr as [->|[->| ->]]; simpl.
    + left. now exists 0%nat.
    + right. lia.
    + right. lia.
Qed.

Lemma in_place_matches_exact L m (todays_answer attempt : list ascii) :
  length attempt = length todays_answer ->
  m <> L ->
  (count_matches L attempt (in_place_code <$> zip_with Ascii.eqb attempt todays_answer)
   + occurrences L (zip_with (fun s (u : bool) => if u then m else s) todays_answer
                      (zip_with Ascii.eqb attempt todays_answer))
   = occurrences L todays_answer)%nat.
Proof.
  intros Hlen HL. revert todays_answer Hlen. unfold fmap.
  induction attempt as [|a attempt IH]; intros [|t todays_answer] Hlen; simpl in *;
    try discriminate; [reflexivity|].
  specialize (IH todays_answer ltac:(lia)).
  destruct (Ascii.eqb_spec a t) as [->|Hat]; simpl.
  - destruct (Ascii.eqb_spec m L) as [E|_]; [congruence|].
    destruct (Ascii.eqb t L); simpl; lia.
  - rewrite andb_false_r. simpl. lia.
Qed.

Section CompareResultVerdicts.

Variable WORD_SIZE : nat.
Variables secret guess : list ascii.
Hypothesis secret_length : length secret = WORD_SIZE.
Hypothesis guess_length : length guess = WORD_SIZE.

(** The third loop neither creates nor removes an LR_IN_PLACE. *)
Lemma compare_result_in_place (result0 : list Z) :
  length result0 = WORD_SIZE ->
  exists ret fr,
    compare_result WORD_SIZE secret guess result0 = (Ok ret, fr) /\
    length (result fr) = WORD_SIZE /\
    forall k, result fr !! k = Some LR_IN_PLACE <->
              exact_matches secret guess !! k = Some true.
Proof.
  intros Hr.
  destruct (compare_result_invariant WORD_SIZE secret guess secret_length guess_length
    (fun _ fr => forall k, result fr !! k = Some LR_IN_PLACE <->
        (in_place_code <$> exact_matches secret guess) !! k = Some LR_IN_PLACE) result0 Hr)
    as (fr & Hrun & Hsame & _ & _ & Hlr).
  - intros i a s s' Ha HJ [[-> _]|(j & Hne & _ & _ & ->)] k; [apply HJ|]. simpl.
    destruct (decide (k = i)) as [->|Hk].
    + rewrite <- HJ. split; [|intros E; contradiction].
      intros E. apply list_lookup_insert_Some in E.
      destruct E as [(_ & E & _)|(E & _)]; [discriminate|congruence].
    + rewrite list_lookup_insert_ne by congruence. apply HJ.
  - intros k. reflexivity.
  - eexists _, fr. split; [exact Hrun|]. split; [exact Hlr|].
    intros k. rewrite Hsame. apply in_place_code_lookup.
Qed.

Hypothesis guess_unmarked : Forall (fun c => c <> consumed_mark) guess.

(** At exit: every verdict is one of the three; for each letter the
    matches and the occurrences left in the copy add up to the
    occurrences in the secret; and where a letter is LR_INCORRECT the
    copy has no occurrence of it left. *)
Lemma compare_result_exit (result0 : list Z) :
  length result0 = WORD_SIZE ->
  exists ret fr,
    compare_result WORD_SIZE secret guess result0 = (Ok ret, fr) /\
    length (result fr) = WORD_SIZE /\
    Forall (fun r => r = LR_INCORRECT \/ r = LR_WRONG_PLACE \/ r = LR_IN_PLACE) (result fr) /\
    (forall L, L <> consumed_mark ->
       (count_matches L guess (result fr) + occurrences L (todays_answer_copy fr)
        = occurrences L secret)%nat) /\
    (forall k a, guess !! k = Some a -> result fr !! k = Some LR_INCORRECT ->
       occurrences a (todays_answer_copy fr) = 0%nat).
Proof.
  intros Hr.
  set (exact := exact_matches secret guess).
  destruct (compare_result_invariant WORD_SIZE secret guess secret_length guess_length
    (fun i fr =>
       Forall (fun r => r = LR_INCORRECT \/ r = LR_WRONG_PLACE \/ r = LR_IN_PLACE)
         (result fr) /\
       (forall L, L <> consumed_mark ->
          (count_matches L guess (result fr) + occurrences L (todays_answer_copy fr)
           = occurrences L secret)%nat) /\
       (forall k, (i <= k)%nat -> result fr !! k = (in_place_code <$> exact) !! k) /\
       (forall k a, (k < i)%nat -> guess !! k = Some a ->
          result fr !! k = Some LR_INCORRECT ->
          occurrences a (todays_answer_copy fr) = 0%nat)) result0 Hr)
    as (fr & Hrun & (HB & HC & _ & HE) & _ & _ & Hlr).
  - intros i a s s' Ha (HB & HC & HD & HE) Heff.
    assert (Hi : (i < WORD_SIZE)%nat) by (apply lookup_lt_Some in Ha; lia).
    assert (Hri : exists e, result s !! i = Some (in_place_code e)).
    { rewrite (HD i) by lia. rewrite list_lookup_fmap.
      destruct (lookup_lt_is_Some_2 exact i) as [e He].
      - unfold exact, exact_matches. rewrite length_zip_with. lia.
      - exists e. now rewrite He. }
    destruct Hri as [e Hri].
    destruct Heff as [[-> Hnone]|(j & Hne & Hj & _ & ->)].
    + repeat split; try assumption.
      * intros k Hk. apply HD. lia.
      * intros k a' Hk Ha' Hk0. destruct (decide (k = i)) as [->|Hki].
        -- assert (a' = a) as -> by congruence.
           apply occurrences_none. intros j Hj. apply Hnone in Hj.
           rewrite Hk0 in Hj. discriminate.
        -- apply (HE k a'); [lia|assumption..].
    + simpl. assert (He : e = false).
      { destruct e; [|reflexivity]. exfalso. apply Hne. exact Hri. }
      subst e. simpl in Hri.
      repeat split.
      * apply Forall_insert; [assumption|]. tauto.
      * intros L HL.
        rewrite (count_matches_insert_exact L guess (result s) i a LR_INCORRECT Ha Hri)
          by reflexivity.
        pose proof (occurrences_insert L (todays_answer_copy s) j a consumed_mark
                      (not_eq_sym HL) Hj).
        specialize (HC L HL). lia.
      * intros k Hk. rewrite list_lookup_insert_ne by lia. apply HD. lia.
      * intros k a' Hk Ha' Hk0. destruct (decide (k = i)) as [->|Hki].
        -- rewrite list_lookup_insert_eq in Hk0; [discriminate|].
           apply lookup_lt_Some in Hri. exact Hri.
        -- rewrite list_lookup_insert_ne in Hk0 by congruence.
           assert (Hm : consumed_mark <> a').
           { rewrite Forall_lookup in guess_unmarked.
             apply not_eq_sym. eapply guess_unmarked, Ha'. }
           pose proof (occurrences_insert a' (todays_answer_copy s) j a consumed_mark Hm Hj).
           assert (occurrences a' (todays_answer_copy s) = 0%nat)
             by (apply (HE k a'); [lia|assumption..]).
           lia.
  - simpl. repeat split.
    + apply Forall_fmap, Forall_forall. intros [|] _; simpl; tauto.
    + intros L HL. apply in_place_matches_exact; [lia|congruence].
    + intros k a Hk. lia.
  - eexists _, fr. split; [exact Hrun|]. split; [exact Hlr|].
    split; [exact HB|]. split; [exact HC|].
    intros k a Ha Hk0. apply (HE k a); [|assumption..].
    apply lookup_lt_Some in Ha. lia.
Qed.

End CompareResultVerdicts.

Lemma unmarked_Forall (w : list ascii) :
  unmarked w = true -> Forall (fun c => c <> consumed_mark) w.
Proof.
  unfold unmarked. rewrite forallb_forall. intros H.
  apply Forall_forall. intros c Hc. apply list_elem_of_In, H in Hc.
  destruct (Ascii.eqb_spec c consumed_mark); [discriminate|assumption].
Qed.

(** X1: position [i] gets LR_IN_PLACE exactly when the guess and the
    secret have the same letter at [i]. *)
Theorem compare_result_in_place_iff_same_letter
    (WORD_SIZE : nat) (secret guess : list ascii) (result0 : list Z) :
  length secret = WORD_SIZE ->
  length guess = WORD_SIZE ->
  length result0 = WORD_SIZE ->
  exists ret fr,
    compare_result WORD_SIZE secret guess result0 = (Ok ret, fr) /\
    forall i, (i < WORD_SIZE)%nat ->
      (result fr !! i = Some LR_IN_PLACE <-> guess !! i = secret !! i).
Proof.
  intros Hs Hg Hr.
  destruct (compare_result_in_place WORD_SIZE secret guess Hs Hg result0 Hr)
    as (ret & fr & Hrun & _ & Hin).
  exists ret, fr. split; [exact Hrun|]. intros i Hi.
  rewrite Hin, exact_matches_lookup_true.
  destruct (lookup_lt_is_Some_2 guess i) as [a Ha]; [lia|].
  destruct (lookup_lt_is_Some_2 secret i) as [t Ht]; [lia|].
  rewrite Ha, Ht. split.
  - intros (c & E1 & E2). congruence.
  - intros E. exists t. split; congruence.
Qed.

Lemma compare_result_in_place_iff_same_letter_witness :
  exists ret fr,
    compare_result 5 (word "blood") (word "boron") [0; 0; 0; 0; 0] = (Ok ret, fr) /\
    forall i, (i < 5)%nat ->
      (result fr !! i = Some LR_IN_PLACE <-> word "boron" !! i = word "blood" !! i).
Proof.
  apply (compare_result_in_place_iff_same_letter 5 (word "blood") (word "boron")
           [0; 0; 0; 0; 0]); reflexivity.
Defined.

(** X2: for every letter, the positions of the guess with that letter
    that are LR_IN_PLACE or LR_WRONG_PLACE are as many as the smaller of
    its occurrences in the guess and in the secret. *)
Theorem compare_result_matches_min
    (WORD_SIZE : nat) (secret guess : list ascii) (result0 : list Z) :
  length secret = WORD_SIZE ->
  length guess = WORD_SIZE ->
  length result0 = WORD_SIZE ->
  unmarked guess = true ->
  exists ret fr,
    compare_result WORD_SIZE secret guess result0 = (Ok ret, fr) /\
    forall L, count_matches L guess (result fr)
              = Nat.min (occurrences L guess) (occurrences L secret).
Proof.
  intros Hs Hg Hr Hun. apply unmarked_Forall in Hun.
  destruct (compare_result_exit WORD_SIZE secret guess Hs Hg Hun result0 Hr)
    as (ret & fr & Hrun & Hlr & Hvalid & Hsum & Habsent).
  exists ret, fr. split; [exact Hrun|]. intros L.
  pose proof (count_matches_le_occurrences L guess (result fr)) as Hle.
  destruct (decide (L = consumed_mark)) as [->|HL].
  - assert (occurrences consumed_mark guess = 0%nat); [|lia].
    apply occurrences_none.
    intros j Hj. rewrite Forall_lookup in Hun. now apply (Hun j consumed_mark).
  - specialize (Hsum L HL).
    destruct (count_matches_dichotomy L guess (result fr)) as [(k & Hk & Hk0)|Hall];
      [lia|assumption| |].
    + rewrite (Habsent k L Hk Hk0) in Hsum. lia.
    + lia.
Qed.

Lemma compare_result_matches_min_witness :
  exists ret fr,
    compare_result 5 (word "bread") (word "erase") [0; 0; 0; 0; 0] = (Ok ret, fr) /\
    forall L, count_matches L (word "erase") (result fr)
              = Nat.min (occurrences L (word "erase")) (occurrences L (word "bread")).
Proof.
  apply (compare_result_matches_min 5 (word "bread") (word "erase") [0; 0; 0; 0; 0]);
    reflexivity.
Defined.

(** X3: a position that gets LR_WRONG_PLACE has a letter that differs
    from the secret's letter there and that the secret has at another
    position. *)
Theorem compare_result_wrong_place_sound
    (WORD_SIZE : nat) (secret guess : list ascii) (result0 : list Z) :
  length secret = WORD_SIZE ->
  length guess = WORD_SIZE ->
  length result0 = WORD_SIZE ->
  unmarked guess = true ->
  exists ret fr,
    compare_result WORD_SIZE secret guess result0 = (Ok ret, fr) /\
    forall i, result fr !! i = Some LR_WRONG_PLACE ->
      guess !! i <> secret !! i /\
      exists j, j <> i /\ secret !! j = guess !! i.
Proof.
  intros Hs Hg Hr Hun. apply unmarked_Forall in Hun.
  destruct (compare_result_exit WORD_SIZE secret guess Hs Hg Hun result0 Hr)
    as (ret & fr & Hrun & Hlr & _ & Hsum & _).
  destruct (compare_result_in_place WORD_SIZE secret guess Hs Hg result0 Hr)
    as (ret' & fr' & Hrun' & _ & Hin).
  rewrite Hrun in Hrun'. injection Hrun' as <- <-.
  exists ret, fr. split; [exact Hrun|]. intros i Hi.
  assert (Hlt : (i < WORD_SIZE)%nat) by (apply lookup_lt_Some in Hi; lia).
  destruct (lookup_lt_is_Some_2 guess i) as [a Ha]; [lia|].
  destruct (lookup_lt_is_Some_2 secret i) as [t Ht]; [lia|].
  assert (Hat : a <> t).
  { intros ->. assert (E : result fr !! i = Some LR_IN_PLACE).
    { apply Hin, exact_matches_lookup_true. eauto. }
    rewrite Hi in E. discriminate. }
  split; [rewrite Ha, Ht; congruence|].
  assert (Ham : a <> consumed_mark).
  { rewrite Forall_lookup in Hun. eapply Hun, Ha. }
  pose proof (count_matches_positive a guess (result fr) i LR_WRONG_PLACE Ha Hi eq_refl).
  destruct (occurrences_positive a secret) as [j Hj]; [specialize (Hsum a Ham); lia|].
  exists j. split; [|now rewrite Ha].
  intros ->. congruence.
Qed.

Lemma compare_result_wrong_place_sound_witness :
  exists ret fr,
    compare_result 5 (word "bread") (word "erase") [0; 0; 0; 0; 0] = (Ok ret, fr) /\
    forall i, result fr !! i = Some LR_WRONG_PLACE ->
      word "erase" !! i <> word "bread" !! i /\
      exists j, j <> i /\ word "bread" !! j = word "erase" !! i.
Proof.
  apply (compare_result_wrong_place_sound 5 (word "bread") (word "erase") [0; 0; 0; 0; 0]);
    reflexivity.
Defined.

(** X4: a letter that the secret does not have gets LR_INCORRECT; and
    where a letter gets LR_INCORRECT, the other positions of the guess
    with that letter match every occurrence of it in the secret. *)
Theorem compare_result_incorrect_meaning
    (WORD_SIZE : nat) (secret guess : list ascii) (result0 : list Z) :
  length secret = WORD_SIZE ->
  length guess = WORD_SIZE ->
  length result0 = WORD_SIZE ->
  unmarked guess = true ->
  exists ret fr,
    compare_result WORD_SIZE secret guess result0 = (Ok ret, fr) /\
    (forall i a, guess !! i = Some a -> a ∉ secret ->
       result fr !! i = Some LR_INCORRECT) /\
    (forall i a, guess !! i = Some a -> result fr !! i = Some LR_INCORRECT ->
       count_matches a guess (result fr) = occurrences a secret).
Proof.
  intros Hs Hg Hr Hun. apply unmarked_Forall in Hun.
  destruct (compare_result_exit WORD_SIZE secret guess Hs Hg Hun result0 Hr)
    as (ret & fr & Hrun & Hlr & Hvalid & Hsum & Habsent).
  exists ret, fr. split; [exact Hrun|].
  assert (Hmark : forall i a, guess !! i = Some a -> a <> consumed_mark).
  { intros i a Ha. rewrite Forall_lookup in Hun. eapply Hun, Ha. }
  split.
  - intros i a Ha Hnot.
    assert (Hocc : occurrences a secret = 0%nat).
    { apply occurrences_none. intros j Hj. apply Hnot.
      eapply list_elem_of_lookup_2, Hj. }
    destruct (lookup_lt_is_Some_2 (result fr) i) as [r Hri].
    { apply lookup_lt_Some in Ha. lia. }
    rewrite Hri. f_equal.
    rewrite Forall_lookup in Hvalid.
    destruct (Hvalid i r Hri) as [->|Hm]; [reflexivity|].
    pose proof (count_matches_positive a guess (result fr) i r Ha Hri) as Hpos.
    specialize (Hsum a (Hmark i a Ha)).
    assert (is_match r = true) by (destruct Hm as [-> | ->]; reflexivity).
    specialize (Hpos ltac:(assumption)). lia.
  - intros i a Ha Hi0.
    specialize (Hsum a (Hmark i a Ha)). rewrite (Habsent i a Ha Hi0) in Hsum. lia.
Qed.

Lemma compare_result_incorrect_meaning_witness :
  exists ret fr,
    compare_result 5 (word "bread") (word "erase") [0; 0; 0; 0; 0] = (Ok ret, fr) /\
    (forall i a, word "erase" !! i = Some a -> a ∉ word "bread" ->
       result fr !! i = Some LR_INCORRECT) /\
    (forall i a, word "erase" !! i = Some a -> result fr !! i = Some LR_INCORRECT ->
       count_matches a (word "erase") (result fr) = occurrences a (word "bread")).
Proof.
  apply (compare_result_incorrect_meaning 5 (word "bread") (word "erase") [0; 0; 0; 0; 0]);
    reflexivity.
Defined.

(** ** load_stats *)

Lemma lookup_padding (numbers : list Z) n d i p :
  (length numbers <= i)%nat -> (numbers ++ replicate n d) !! i = Some p -> p = d.
Proof.
  intros Hi Hp. rewrite lookup_app_r in Hp by lia.
  apply lookup_replicate in Hp. tauto.
Qed.

Section LoadStatsFacts.

Variable MAX_NUM_ATTEMPTS : nat.

Lemma set_win_ok i v (s : stats_reader) :
  (i < length (wins_per_num_attempts (sr_stats s)))%nat ->
  set_win i v s
  = (Ok tt, StatsReader {| wins_per_num_attempts := <[i:=v]> (wins_per_num_attempts (sr_stats s));
                           num_missed_words := num_missed_words (sr_stats s) |}
                        (sr_stream s) (sr_value s) (sr_stdout s)).
Proof.
  intros Hi. unfold set_win, bind, gets, modify. now rewrite store_ok.
Qed.

Lemma load_stats_no_file_run (s : stats_reader) :
  length (wins_per_num_attempts (sr_stats s)) = MAX_NUM_ATTEMPTS ->
  load_stats MAX_NUM_ATTEMPTS None s
  = (Ok tt, StatsReader (no_stats MAX_NUM_ATTEMPTS) (sr_stream s) (sr_value s) (sr_stdout s)).
Proof.
  intros Hlen. unfold load_stats.
  pose (I := fun (i : nat) (s' : stats_reader) =>
    sr_stream s' = sr_stream s /\ sr_value s' = sr_value s /\ sr_stdout s' = sr_stdout s /\
    length (wins_per_num_attempts (sr_stats s')) = MAX_NUM_ATTEMPTS /\
    forall k, (k < i)%nat -> wins_per_num_attempts (sr_stats s') !! k = Some 0).
  destruct (for_loop_invariant I (fun i => set_win i 0) MAX_NUM_ATTEMPTS 0%nat)
    with (s := s) as (s' & Hrun & Hst & Hv & Hso & Hl & Hz).
  - intros i s0 Hi (Hst & Hv & Hso & Hl & Hz).
    rewrite set_win_ok by lia. eexists. split; [reflexivity|].
    unfold I. simpl. rewrite length_insert. repeat split; try assumption.
    intros k Hk. destruct (decide (k = i)) as [->|Hki].
    + apply list_lookup_insert_eq. lia.
    + rewrite list_lookup_insert_ne by congruence. apply Hz. lia.
  - unfold I. repeat split; try assumption. intros k Hk. lia.
  - rewrite (bind_ok _ _ _ _ _ Hrun). unfold set_missed, modify. f_equal.
    rewrite Hst, Hv, Hso. f_equal. unfold no_stats. f_equal.
    apply list_eq. intros k. destruct (decide (k < MAX_NUM_ATTEMPTS)%nat).
    + rewrite lookup_replicate_2 by lia. apply Hz. lia.
    + rewrite lookup_ge_None_2 by lia. symmetry. apply lookup_replicate_None. lia.
Qed.

(** What [load_stats] does with a file that opens. *)
Lemma load_stats_file_run (numbers : list Z) (s : stats_reader) :
  length (wins_per_num_attempts (sr_stats s)) = MAX_NUM_ATTEMPTS ->
  exists vals v,
    values_read numbers (sr_value s) (Datatypes.S MAX_NUM_ATTEMPTS) = vals ++ [v] /\
    length vals = MAX_NUM_ATTEMPTS /\
    load_stats MAX_NUM_ATTEMPTS (Some numbers) s
    = (Ok tt, StatsReader {| wins_per_num_attempts := unless_EOF <$> vals;
                             num_missed_words := unless_EOF v |}
                          (drop (Datatypes.S MAX_NUM_ATTEMPTS) numbers) v
                          (sr_stdout s ++ [Text "I shouldn't be running!"])).
Proof.
  intros Hlen.
  set (v0 := sr_value s).
  set (d := default v0 (last numbers)).
  set (P := numbers ++ replicate (Datatypes.S MAX_NUM_ATTEMPTS) d).
  assert (HP : forall i, (i <= MAX_NUM_ATTEMPTS)%nat -> is_Some (P !! i)).
  { intros i Hi. apply lookup_lt_is_Some_2. unfold P.
    rewrite length_app, length_replicate. lia. }
  (* one read *)
  assert (Hread : forall i p (s' : stats_reader),
    (i <= MAX_NUM_ATTEMPTS)%nat -> P !! i = Some p ->
    sr_stream s' = drop i numbers ->
    (i = 0%nat /\ sr_value s' = v0 \/
     exists i', i = Datatypes.S i' /\ P !! i' = Some (sr_value s')) ->
    exists r, fscanf_d s'
      = (Ok r, StatsReader (sr_stats s') (drop (Datatypes.S i) numbers) p (sr_stdout s'))).
  { intros i p s' Hi Hp Hstr Hval. unfold fscanf_d. rewrite Hstr.
    destruct (decide (i < length numbers)%nat) as [Hlt|Hge].
    - unfold P in Hp. rewrite lookup_app_l in Hp by lia.
      rewrite (drop_S _ _ _ Hp). eauto.
    - rewrite drop_ge by lia. exists EOF.
      assert (Hnext : drop (Datatypes.S i) numbers = []) by (apply drop_ge; lia).
      rewrite Hnext.
      assert (Hpd : p = d).
      { apply (lookup_padding numbers (Datatypes.S MAX_NUM_ATTEMPTS) d i p); [lia|exact Hp]. }
      assert (Hvp : sr_value s' = p).
      { subst p. destruct Hval as [[-> ->]|(i' & -> & Hi')].
        - assert (numbers = []) as -> by (destruct numbers; [reflexivity|simpl in Hge; lia]).
          reflexivity.
        - destruct (decide (i' < length numbers)%nat) as [Hlt'|Hge'].
          + unfold P in Hi'. rewrite lookup_app_l in Hi' by lia.
            assert (Hlast : last numbers = Some (sr_value s')).
            { rewrite last_lookup. replace (pred (length numbers)) with i' by lia.
              exact Hi'. }
            unfold d. now rewrite Hlast.
          + apply (lookup_padding numbers (Datatypes.S MAX_NUM_ATTEMPTS) d i' (sr_value s'));
              [lia|exact Hi']. }
      destruct s' as [st str val so]. simpl in *.
      rewrite Hvp, Hstr. now rewrite drop_ge by lia. }
  pose (I := fun (i : nat) (s' : stats_reader) =>
    sr_stream s' = drop i numbers /\
    (i = 0%nat /\ sr_value s' = v0 \/
     exists i', i = Datatypes.S i' /\ P !! i' = Some (sr_value s')) /\
    sr_stdout s' = sr_stdout s ++ [Text "I shouldn't be running!"] /\
    num_missed_words (sr_stats s') = num_missed_words (sr_stats s) /\
    length (wins_per_num_attempts (sr_stats s')) = MAX_NUM_ATTEMPTS /\
    forall k, (k < i)%nat ->
      wins_per_num_attempts (sr_stats s') !! k = unless_EOF <$> P !! k).
  destruct (for_loop_invariant I
    (fun i => bind fscanf_d (fun _ => bind (gets sr_value) (fun value =>
       set_win i (if negb (value =? EOF) then value else 0))))
    MAX_NUM_ATTEMPTS 0%nat)
    with (s := StatsReader (sr_stats s) numbers (sr_value s)
                 (sr_stdout s ++ [Text "I shouldn't be running!"]))
    as (s1 & Hrun & Hstr & Hval & Hso & Hmiss & Hl & Hw).
  - intros i s' Hi (Hstr & Hval & Hso & Hmiss & Hl & Hw).
    destruct (HP i) as [p Hp]; [lia|].
    destruct (Hread i p s' ltac:(lia) Hp Hstr Hval) as [r Hr].
    rewrite (bind_ok _ _ _ _ _ Hr). unfold gets at 1. unfold bind at 1. simpl.
    rewrite set_win_ok by (simpl; lia).
    eexists. split; [reflexivity|]. unfold I. simpl.
    rewrite length_insert. repeat split; try assumption.
    + right. exists i. split; [lia|assumption].
    + intros k Hk. destruct (decide (k = i)) as [->|Hki].
      * rewrite list_lookup_insert_eq by lia. now rewrite Hp.
      * rewrite list_lookup_insert_ne by congruence. apply Hw. lia.
  - unfold I. simpl. repeat split; try assumption; try reflexivity.
    + left. split; reflexivity.
    + intros k Hk. lia.
  - destruct (HP MAX_NUM_ATTEMPTS) as [v Hv]; [lia|].
    exists (take MAX_NUM_ATTEMPTS P), v.
    assert (HlP : (MAX_NUM_ATTEMPTS < length P)%nat) by (apply lookup_lt_Some in Hv; lia).
    split; [|split].
    + unfold values_read. fold v0. fold d. fold P. now apply take_S_r.
    + rewrite length_take. lia.
    + unfold load_stats, open_stats, printf_reader.
      unfold modify at 1. unfold bind at 1. simpl.
      unfold modify at 1. unfold bind at 1. simpl.
      rewrite (bind_ok _ _ _ _ _ Hrun).
      destruct (Hread MAX_NUM_ATTEMPTS v s1 ltac:(lia) Hv Hstr Hval) as [r Hr].
      rewrite (bind_ok _ _ _ _ _ Hr). unfold gets, bind, set_missed, modify. simpl.
      f_equal. rewrite Hso. f_equal. f_equal.
      apply list_eq. intros k. destruct (decide (k < MAX_NUM_ATTEMPTS)%nat).
      * rewrite Hw by lia. rewrite list_lookup_fmap, lookup_take_lt by lia. reflexivity.
      * rewrite !lookup_ge_None_2; [reflexivity| |lia].
        rewrite length_fmap, length_take. lia.
Qed.

End LoadStatsFacts.

(** ** save_stats and load_stats together *)

(** A call of [save_stats] that can write the file. *)
Lemma save_stats_writable_run (MAX_NUM_ATTEMPTS : nat) (num_attempts : Z) (w : world) :
  length (wins_per_num_attempts (stats w)) = MAX_NUM_ATTEMPTS ->
  stats_writable w = true ->
  1 <= num_attempts < UINT_MODULUS ->
  exists st',
    save_stats MAX_NUM_ATTEMPTS num_attempts w
    = (Ok 1, World st' true (wins_per_num_attempts st' ++ [num_missed_words st'])) /\
    length (wins_per_num_attempts st') = MAX_NUM_ATTEMPTS /\
    ((exists c, wins_per_num_attempts (stats w) !! Z.to_nat (num_attempts - 1) = Some c /\
        st' = {| wins_per_num_attempts :=
                   <[Z.to_nat (num_attempts - 1) := c + 1]> (wins_per_num_attempts (stats w));
                 num_missed_words := num_missed_words (stats w) |})
     \/ st' = {| wins_per_num_attempts := wins_per_num_attempts (stats w);
                 num_missed_words := num_missed_words (stats w) + 1 |}).
Proof.
  intros Hlen Hw Hk. unfold save_stats.
  destruct (Z.le_gt_cases num_attempts (Z.of_nat MAX_NUM_ATTEMPTS)) as [Hwin|Hloss].
  - destruct (update_stats_win MAX_NUM_ATTEMPTS num_attempts w Hlen) as (c & Hc & Hrun);
      [lia..|].
    rewrite (bind_ok _ _ _ _ _ Hrun).
    exists {| wins_per_num_attempts :=
                <[Z.to_nat (num_attempts - 1) := c + 1]> (wins_per_num_attempts (stats w));
              num_missed_words := num_missed_words (stats w) |}.
    split; [|split].
    + rewrite write_stats_writable; simpl; [reflexivity| |assumption].
      rewrite length_insert. exact Hlen.
    + simpl. rewrite length_insert. exact Hlen.
    + left. exists c. split; [assumption|reflexivity].
  - rewrite (bind_ok _ _ _ _ _ (update_stats_loss MAX_NUM_ATTEMPTS num_attempts w ltac:(lia))).
    exists {| wins_per_num_attempts := wins_per_num_attempts (stats w);
              num_missed_words := num_missed_words (stats w) + 1 |}.
    split; [|split].
    + rewrite write_stats_writable; simpl; [reflexivity|exact Hlen|assumption].
    + exact Hlen.
    + right. reflexivity.
Qed.

(** Counters from 0 up to, not including, [INT_MAX] are from 0 to
    [INT_MAX] after the update. *)
Lemma updated_counters (MAX_NUM_ATTEMPTS : nat) (num_attempts : Z) (w : world)
    (st' : player_stats_t) :
  counters_in_range (stats w) ->
  ((exists c, wins_per_num_attempts (stats w) !! Z.to_nat (num_attempts - 1) = Some c /\
      st' = {| wins_per_num_attempts :=
                 <[Z.to_nat (num_attempts - 1) := c + 1]> (wins_per_num_attempts (stats w));
               num_missed_words := num_missed_words (stats w) |})
   \/ st' = {| wins_per_num_attempts := wins_per_num_attempts (stats w);
               num_missed_words := num_missed_words (stats w) + 1 |}) ->
  Forall (fun v => 0 <= v < 2 ^ 31) (wins_per_num_attempts st' ++ [num_missed_words st']).
Proof.
  unfold counters_in_range. intros Hrange Hst'.
  change (2 ^ 31 - 1) with 2147483647 in Hrange. change (2 ^ 31) with 2147483648.
  apply Forall_app in Hrange. destruct Hrange as [Hwins Hmiss].
  rewrite Forall_singleton in Hmiss.
  assert (Hwins' : Forall (fun v => 0 <= v < 2147483648) (wins_per_num_attempts (stats w))).
  { eapply Forall_impl; [exact Hwins|]. intros x Hx. simpl in Hx. lia. }
  destruct Hst' as [(c & Hc & ->)| ->]; simpl; apply Forall_app; split.
  - apply Forall_insert; [exact Hwins'|].
    rewrite Forall_lookup in Hwins. specialize (Hwins _ _ Hc). simpl in Hwins. lia.
  - apply Forall_singleton. lia.
  - exact Hwins'.
  - apply Forall_singleton. lia.
Qed.

(** X5: when [stats.txt] can be opened for writing, [save_stats] on
    counters from 0 up to, not including, [INT_MAX] returns 1 and leaves
    in the file, in place of what it held, the [MAX_NUM_ATTEMPTS] win
    counters in order followed by [num_missed_words], as they are after
    the update; each number written is from 0 to [INT_MAX], so "%u"
    prints it as it is. *)
Theorem save_stats_file_contents
    (MAX_NUM_ATTEMPTS : nat) (num_attempts : Z) (w : world) :
  length (wins_per_num_attempts (stats w)) = MAX_NUM_ATTEMPTS ->
  counters_in_range (stats w) ->
  stats_writable w = true ->
  1 <= num_attempts < UINT_MODULUS ->
  (save_stats MAX_NUM_ATTEMPTS num_attempts w).1 = Ok 1 /\
  stats_txt (save_stats MAX_NUM_ATTEMPTS num_attempts w).2
  = wins_per_num_attempts (stats (save_stats MAX_NUM_ATTEMPTS num_attempts w).2)
    ++ [num_missed_words (stats (save_stats MAX_NUM_ATTEMPTS num_attempts w).2)] /\
  Forall (fun v => 0 <= v < 2 ^ 31)
    (stats_txt (save_stats MAX_NUM_ATTEMPTS num_attempts w).2).
Proof.
  intros Hlen Hrange Hw Hk.
  destruct (save_stats_writable_run MAX_NUM_ATTEMPTS num_attempts w Hlen Hw Hk)
    as (st' & -> & _ & Hst'). simpl. split; [reflexivity|]. split; [reflexivity|].
  now apply (updated_counters MAX_NUM_ATTEMPTS num_attempts w).
Qed.

Lemma save_stats_file_contents_witness :
  (save_stats 6 2 (World (no_stats 6) true [9; 9])).1 = Ok 1 /\
  stats_txt (save_stats 6 2 (World (no_stats 6) true [9; 9])).2
  = wins_per_num_attempts (stats (save_stats 6 2 (World (no_stats 6) true [9; 9])).2)
    ++ [num_missed_words (stats (save_stats 6 2 (World (no_stats 6) true [9; 9])).2)] /\
  Forall (fun v => 0 <= v < 2 ^ 31)
    (stats_txt (save_stats 6 2 (World (no_stats 6) true [9; 9])).2).
Proof.
  apply (save_stats_file_contents 6 2 (World (no_stats 6) true [9; 9])).
  - reflexivity.
  - in_range.
  - reflexivity.
  - unfold UINT_MODULUS. lia.
Defined.

(** X6: when [stats.txt] cannot be opened, [load_stats] sets every win
    counter and [num_missed_words] to 0, whatever the struct held, and
    prints nothing. *)
Theorem load_stats_without_file (MAX_NUM_ATTEMPTS : nat) (s : stats_reader) :
  length (wins_per_num_attempts (sr_stats s)) = MAX_NUM_ATTEMPTS ->
  load_stats MAX_NUM_ATTEMPTS None s
  = (Ok tt, StatsReader {| wins_per_num_attempts := replicate MAX_NUM_ATTEMPTS 0;
                           num_missed_words := 0 |}
                        (sr_stream s) (sr_value s) (sr_stdout s)).
Proof. apply load_stats_no_file_run. Qed.

Lemma load_stats_without_file_witness :
  load_stats 6 None
    (StatsReader {| wins_per_num_attempts := [4; 8; 15; 16; 23; 42]; num_missed_words := 7 |}
       [] 0 [])
  = (Ok tt, StatsReader {| wins_per_num_attempts := replicate 6 0; num_missed_words := 0 |}
              [] 0 []).
Proof.
  apply (load_stats_without_file 6
    (StatsReader {| wins_per_num_attempts := [4; 8; 15; 16; 23; 42]; num_missed_words := 7 |}
       [] 0 [])).
  reflexivity.
Defined.

(** The numbers that [load_stats] stores are from 0 to [INT_MAX] when
    those of the file and of [value] are from [EOF] to [INT_MAX]. *)
Lemma stored_values_in_range (numbers : list Z) (value0 : Z) (reads : nat) :
  numbers_in_range (value0 :: numbers) ->
  Forall (fun c => 0 <= c < 2 ^ 31) (unless_EOF <$> values_read numbers value0 reads).
Proof.
  unfold numbers_in_range, values_read, EOF. intros Hrange.
  change (2 ^ 31) with 2147483648 in *.
  apply Forall_cons in Hrange. destruct Hrange as [Hv0 Hnum].
  apply Forall_fmap, Forall_take.
  assert (Hd : -1 <= default value0 (last numbers) < 2147483648).
  { destruct (last numbers) as [n|] eqn:Hlast; simpl; [|exact Hv0].
    rewrite Forall_lookup in Hnum. rewrite last_lookup in Hlast. exact (Hnum _ _ Hlast). }
  apply Forall_app. split.
  - eapply Forall_impl; [exact Hnum|]. intros n Hn. simpl in *. unfold unless_EOF, EOF.
    destruct (Z.eqb_spec n (-1)); simpl; lia.
  - apply Forall_replicate. simpl. unfold unless_EOF, EOF.
    destruct (Z.eqb_spec (default value0 (last numbers)) (-1)); simpl; lia.
Qed.

(** X7: [load_stats] on a file that opens, whose numbers (and what
    [value] held at entry) are from [EOF] to [INT_MAX], prints the text
    "I shouldn't be running!", then stores in counter [i] the [i]-th
    number of the file and in [num_missed_words] the number after the
    counters; where the file has no number left it stores again the last
    number read (what [value] held at entry if the file has none), and a
    number equal to [EOF] is stored as 0; every counter stored is from 0
    to [INT_MAX]. *)
Theorem load_stats_with_file
    (MAX_NUM_ATTEMPTS : nat) (numbers : list Z) (s : stats_reader) :
  length (wins_per_num_attempts (sr_stats s)) = MAX_NUM_ATTEMPTS ->
  numbers_in_range (sr_value s :: numbers) ->
  exists vals v,
    values_read numbers (sr_value s) (Datatypes.S MAX_NUM_ATTEMPTS) = vals ++ [v] /\
    length vals = MAX_NUM_ATTEMPTS /\
    load_stats MAX_NUM_ATTEMPTS (Some numbers) s
    = (Ok tt, StatsReader {| wins_per_num_attempts := unless_EOF <$> vals;
                             num_missed_words := unless_EOF v |}
                          (drop (Datatypes.S MAX_NUM_ATTEMPTS) numbers) v
                          (sr_stdout s ++ [Text "I shouldn't be running!"])) /\
    Forall (fun c => 0 <= c < 2 ^ 31) ((unless_EOF <$> vals) ++ [unless_EOF v]).
Proof.
  intros Hlen Hrange.
  destruct (load_stats_file_run MAX_NUM_ATTEMPTS numbers s Hlen)
    as (vals & v & Hvals & Hlv & Hrun).
  exists vals, v. split; [exact Hvals|]. split; [exact Hlv|]. split; [exact Hrun|].
  pose proof (stored_values_in_range numbers (sr_value s) (Datatypes.S MAX_NUM_ATTEMPTS)
                Hrange) as Hstored.
  rewrite Hvals, fmap_app in Hstored. exact Hstored.
Qed.

Lemma load_stats_with_file_witness :
  exists vals v,
    values_read [3; -1] 5 (Datatypes.S 6) = vals ++ [v] /\
    length vals = 6%nat /\
    load_stats 6 (Some [3; -1]) (StatsReader (no_stats 6) [] 5 [])
    = (Ok tt, StatsReader {| wins_per_num_attempts := unless_EOF <$> vals;
                             num_missed_words := unless_EOF v |}
                          (drop (Datatypes.S 6) [3; -1]) v
                          ([] ++ [Text "I shouldn't be running!"])) /\
    Forall (fun c => 0 <= c < 2 ^ 31) ((unless_EOF <$> vals) ++ [unless_EOF v]).
Proof.
  apply (load_stats_with_file 6 [3; -1] (StatsReader (no_stats 6) [] 5 [])).
  - reflexivity.
  - in_range.
Defined.

(** A file with two numbers, the second of them -1. *)
Example load_stats_short_file :
  load_stats 6 (Some [3; -1]) (StatsReader (no_stats 6) [] 5 [])
  = (Ok tt, StatsReader {| wins_per_num_attempts := [3; 0; 0; 0; 0; 0];
                           num_missed_words := 0 |}
              [] (-1) [Text "I shouldn't be running!"]).
Proof. reflexivity. Qed.

(** X8: what [save_stats] writes, [load_stats] reads back.  For counters
    from 0 to [INT_MAX - 1] and a file that can be written, saving an
    outcome and then loading the file into any struct gives the stats as
    they are after the save. *)
Theorem load_stats_after_save_stats
    (MAX_NUM_ATTEMPTS : nat) (num_attempts : Z) (w : world) (s : stats_reader) :
  length (wins_per_num_attempts (stats w)) = MAX_NUM_ATTEMPTS ->
  stats_writable w = true ->
  1 <= num_attempts < UINT_MODULUS ->
  Forall (fun c => 0 <= c < 2 ^ 31 - 1)
    (wins_per_num_attempts (stats w) ++ [num_missed_words (stats w)]) ->
  length (wins_per_num_attempts (sr_stats s)) = MAX_NUM_ATTEMPTS ->
  exists w' s',
    save_stats MAX_NUM_ATTEMPTS num_attempts w = (Ok 1, w') /\
    load_stats MAX_NUM_ATTEMPTS (Some (stats_txt w')) s = (Ok tt, s') /\
    sr_stats s' = stats w'.
Proof.
  intros Hlen Hw Hk Hrange Hls.
  destruct (save_stats_writable_run MAX_NUM_ATTEMPTS num_attempts w Hlen Hw Hk)
    as (st' & Hsave & Hlen' & Hst').
  destruct (load_stats_file_run MAX_NUM_ATTEMPTS
              (wins_per_num_attempts st' ++ [num_missed_words st']) s Hls)
    as (vals & v & Hvals & Hlv & Hload).
  eexists _, _. split; [exact Hsave|]. split; [exact Hload|]. simpl.
  assert (Hsplit : vals = wins_per_num_attempts st' /\ v = num_missed_words st').
  { unfold values_read in Hvals.
    rewrite take_app_length' in Hvals by (rewrite length_app; simpl; lia).
    symmetry in Hvals. now apply app_inj_tail in Hvals. }
  destruct Hsplit as [-> ->].
  assert (Hpos : Forall (fun c => 0 <= c)
                   (wins_per_num_attempts st' ++ [num_missed_words st'])).
  { apply Forall_app in Hrange. destruct Hrange as [Hwins Hmiss].
    rewrite Forall_singleton in Hmiss.
    destruct Hst' as [(c & Hc & ->)| ->]; simpl; apply Forall_app; split.
    - apply Forall_insert.
      + eapply Forall_impl; [exact Hwins|]. intros x [Hx _]. exact Hx.
      + rewrite Forall_lookup in Hwins. destruct (Hwins _ _ Hc) as [? _]. lia.
    - apply Forall_singleton. now destruct Hmiss.
    - eapply Forall_impl; [exact Hwins|]. intros x [Hx _]. exact Hx.
    - apply Forall_singleton. destruct Hmiss as [? _]. lia. }
  apply Forall_app in Hpos. destruct Hpos as [Hwins Hmiss].
  rewrite Forall_singleton in Hmiss.
  assert (Hid : forall c, 0 <= c -> unless_EOF c = c).
  { intros c Hc. unfold unless_EOF, EOF. destruct (Z.eqb_spec c (-1)); [lia|reflexivity]. }
  destruct st' as [wins' missed']. simpl in *. f_equal.
  - clear -Hwins Hid. induction Hwins as [|c l Hc _ IH]; [reflexivity|].
    change (unless_EOF c :: (unless_EOF <$> l) = c :: l). now rewrite IH, Hid.
  - now apply Hid.
Qed.

Lemma load_stats_after_save_stats_witness :
  exists w' s',
    save_stats 6 4 (World (no_stats 6) true []) = (Ok 1, w') /\
    load_stats 6 (Some (stats_txt w')) (StatsReader (no_stats 6) [] 0 []) = (Ok tt, s') /\
    sr_stats s' = stats w'.
Proof.
  apply (load_stats_after_save_stats 6 4 (World (no_stats 6) true [])
           (StatsReader (no_stats 6) [] 0 [])).
  - reflexivity.
  - reflexivity.
  - unfold UINT_MODULUS. lia.
  - simpl. repeat apply Forall_cons_2; try apply Forall_nil_2; split; lia || reflexivity.
  - reflexivity.
Defined.

(** ** Reading words from a file *)

Lemma plain_word_inv (w : list ascii) :
  plain_word w = true ->
  w <> [] /\ Forall (fun c => isspace c = false /\ c <> NUL) w.
Proof.
  unfold plain_word. intros H. apply andb_prop in H. destruct H as [Hne Hall]. split.
  - intros ->. discriminate.
  - rewrite forallb_forall in Hall. apply Forall_forall. intros c Hc.
    apply list_elem_of_In, Hall, andb_prop in Hc. destruct Hc as [Hs Hn].
    split; [now destruct (isspace c)|].
    destruct (Ascii.eqb_spec c NUL); [discriminate|assumption].
Qed.

Lemma scan_word_plain (w rest : list ascii) sp :
  Forall (fun c => isspace c = false /\ c <> NUL) w ->
  isspace sp = true ->
  scan_word (w ++ sp :: rest) = (w, sp :: rest).
Proof.
  intros Hw Hsp. induction Hw as [|c w [Hc _] _ IH]; simpl.
  - now rewrite Hsp.
  - now rewrite Hc, IH.
Qed.

Lemma c_str_plain (w : list ascii) :
  Forall (fun c => isspace c = false /\ c <> NUL) w -> c_str w = w.
Proof.
  intros Hw. induction Hw as [|c w [_ Hc] _ IH]; simpl; [reflexivity|].
  destruct (Ascii.eqb_spec c NUL); [contradiction|]. now rewrite IH.
Qed.

Lemma skip_space_plain (w rest : list ascii) :
  plain_word w = true -> skip_space (w ++ rest) = w ++ rest.
Proof.
  intros Hw. apply plain_word_inv in Hw. destruct Hw as [Hne Hall].
  destruct Hall as [|c w [Hc _] _]; [contradiction|]. simpl. now rewrite Hc.
Qed.

Lemma skip_space_lines (ws : list (list ascii)) :
  Forall (fun w => plain_word w = true) ws -> skip_space (lines ws) = lines ws.
Proof.
  intros [|w ws' Hw _]; [reflexivity|].
  unfold lines. simpl. rewrite <- app_assoc. now apply skip_space_plain.
Qed.

Section TextFilesFacts.

Variable WORD_SIZE : nat.

(** Reading a word that fits: [word] holds it, and the stream is at the
    white space after it. *)
Lemma fscanf_s_word {T} (w rest : list ascii) sp (s : text_reader T) :
  fits WORD_SIZE w = true ->
  isspace sp = true ->
  skip_space (tr_stream s) = w ++ sp :: rest ->
  fscanf_s WORD_SIZE s = (Ok 1, TextReader (tr_target s) (sp :: rest) w).
Proof.
  intros Hfit Hsp Hstream. unfold fits in Hfit. apply andb_prop in Hfit.
  destruct Hfit as [Hplain Hlen]. apply plain_word_inv in Hplain.
  destruct Hplain as [Hne Hall].
  unfold fscanf_s. rewrite Hstream.
  destruct w as [|c w]; [contradiction|].
  change ((c :: w) ++ sp :: rest) with (c :: (w ++ sp :: rest)).
  cbv iota. change (c :: (w ++ sp :: rest)) with ((c :: w) ++ sp :: rest).
  rewrite (scan_word_plain _ _ _ Hall Hsp), Hlen, (c_str_plain _ Hall). reflexivity.
Qed.

(** A word of more than [WORD_SIZE] characters does not fit in [word]. *)
Lemma fscanf_s_overflow {T} (w rest : list ascii) sp (s : text_reader T) :
  plain_word w = true ->
  (WORD_SIZE < length w)%nat ->
  isspace sp = true ->
  skip_space (tr_stream s) = w ++ sp :: rest ->
  fscanf_s WORD_SIZE s
  = (Fault (OutOfBounds (Z.of_nat (Datatypes.S WORD_SIZE))),
     TextReader (tr_target s) (sp :: rest) (tr_word s)).
Proof.
  intros Hplain Hlen Hsp Hstream. apply plain_word_inv in Hplain.
  destruct Hplain as [Hne Hall].
  unfold fscanf_s. rewrite Hstream.
  destruct w as [|c w]; [contradiction|].
  change ((c :: w) ++ sp :: rest) with (c :: (w ++ sp :: rest)).
  cbv iota. change (c :: (w ++ sp :: rest)) with ((c :: w) ++ sp :: rest).
  rewrite (scan_word_plain _ _ _ Hall Hsp).
  destruct (Nat.leb_spec (length (c :: w)) WORD_SIZE); [lia|reflexivity].
Qed.

Lemma fscanf_s_end {T} (s : text_reader T) :
  skip_space (tr_stream s) = [] ->
  fscanf_s WORD_SIZE s = (Ok EOF, TextReader (tr_target s) [] (tr_word s)).
Proof. intros H. unfold fscanf_s. now rewrite H. Qed.

End TextFilesFacts.

(** ** load_valid_words *)

Lemma lines_cons (w : list ascii) (ws : list (list ascii)) :
  lines (w :: ws) = w ++ LF :: lines ws.
Proof. unfold lines. simpl. now rewrite <- app_assoc. Qed.

Lemma fits_plain (WORD_SIZE : nat) (ws : list (list ascii)) :
  Forall (fun w => fits WORD_SIZE w = true) ws ->
  Forall (fun w => plain_word w = true) ws.
Proof.
  intros Hall. eapply Forall_impl; [exact Hall|].
  intros w H. unfold fits in H. now apply andb_prop in H.
Qed.

Lemma bind_ext {S A B} (m : M S A) (k1 k2 : A -> M S B) s :
  (forall a s', k1 a s' = k2 a s') -> bind m k1 s = bind m k2 s.
Proof. intros H. unfold bind. destruct (m s) as [[a|f] s']; [apply H|reflexivity]. Qed.

Section LoadValidWordsFacts.

Variables WORD_SIZE MAX_VALID_WORDS : nat.

(** More rounds than the loop can make change nothing. *)
Lemma read_words_rounds (rounds extra word_count : nat) (s : text_reader valid_word_list_t) :
  (word_count <= MAX_VALID_WORDS)%nat ->
  (MAX_VALID_WORDS < word_count + rounds)%nat ->
  read_words WORD_SIZE MAX_VALID_WORDS (rounds + extra) word_count s
  = read_words WORD_SIZE MAX_VALID_WORDS rounds word_count s.
Proof.
  revert word_count s.
  induction rounds as [|rounds IH]; intros word_count s Hle Hlt; [lia|].
  simpl. apply bind_ext. intros r s1.
  destruct (r =? EOF); [reflexivity|].
  destruct (Nat.leb_spec MAX_VALID_WORDS word_count); [reflexivity|].
  do 4 (apply bind_ext; intros ? ?).
  apply IH; lia.
Qed.

(** The loop on a file with one word on each line. *)
Lemma read_words_lines (ws : list (list ascii)) :
  Forall (fun w => fits WORD_SIZE w = true) ws ->
  forall rounds word_count (s : text_reader valid_word_list_t),
  skip_space (tr_stream s) = lines ws ->
  length (words (tr_target s)) = MAX_VALID_WORDS ->
  (word_count <= MAX_VALID_WORDS)%nat ->
  (MAX_VALID_WORDS < word_count + rounds)%nat ->
  exists s',
    read_words WORD_SIZE MAX_VALID_WORDS rounds word_count s
    = (Ok (Nat.min MAX_VALID_WORDS (word_count + length ws)), s') /\
    words (tr_target s')
    = take word_count (words (tr_target s)) ++ take (MAX_VALID_WORDS - word_count) ws
      ++ drop (Nat.min MAX_VALID_WORDS (word_count + length ws)) (words (tr_target s)) /\
    num_words (tr_target s') = num_words (tr_target s).
Proof.
  intros Hfits. induction Hfits as [|w ws Hw Hws IH];
    intros rounds word_count s Hstream Hrows Hle Hlt;
    (destruct rounds as [|rounds]; [lia|]); simpl read_words.
  - rewrite (bind_ok _ _ _ _ _ (fscanf_s_end WORD_SIZE s Hstream)). simpl.
    replace (Nat.min MAX_VALID_WORDS (word_count + 0)) with word_count by lia.
    eexists. split; [reflexivity|]. split; [|reflexivity].
    simpl. rewrite take_nil. simpl. now rewrite take_drop.
  - rewrite lines_cons in Hstream.
    rewrite (bind_ok _ _ _ _ _ (fscanf_s_word WORD_SIZE w (lines ws) LF s Hw eq_refl Hstream)).
    simpl (1 =? EOF). cbv iota.
    destruct (Nat.leb_spec MAX_VALID_WORDS word_count) as [Hfull|Hroom].
    + assert (word_count = MAX_VALID_WORDS) as -> by lia.
      replace (Nat.min MAX_VALID_WORDS (MAX_VALID_WORDS + length (w :: ws)))
        with MAX_VALID_WORDS by lia.
      eexists. split; [reflexivity|]. split; [|reflexivity].
      simpl. rewrite Nat.sub_diag, take_0. simpl. now rewrite take_drop.
    + unfold gets at 1. unfold bind at 1. simpl.
      unfold gets at 1. unfold bind at 1. simpl.
      erewrite bind_ok by (apply store_ok; lia).
      unfold set_target at 1. unfold modify at 1. unfold bind at 1. simpl.
      destruct (IH rounds (Datatypes.S word_count)
                  (TextReader {| words := <[word_count:=w]> (words (tr_target s));
                                 num_words := num_words (tr_target s) |}
                              (LF :: lines ws) w))
        as (s' & Hrun & Hwords & Hnum).
      * simpl. apply skip_space_lines. eapply fits_plain, Hws.
      * simpl. rewrite length_insert. exact Hrows.
      * lia.
      * lia.
      * replace (word_count + Datatypes.S (length ws))%nat
          with (Datatypes.S word_count + length ws)%nat by lia.
        exists s'. split; [exact Hrun|]. split.
        -- rewrite Hwords. simpl.
           destruct (lookup_lt_is_Some_2 (words (tr_target s)) word_count) as [x Hx]; [lia|].
           rewrite (take_S_r (<[word_count:=w]> (words (tr_target s))) word_count w)
             by (apply list_lookup_insert_eq; lia).
           rewrite take_insert_ge by lia.
           rewrite drop_insert_lt by lia.
           replace (MAX_VALID_WORDS - word_count)%nat
             with (Datatypes.S (MAX_VALID_WORDS - Datatypes.S word_count)) by lia.
           simpl. now rewrite <- app_assoc.
        -- exact Hnum.
Qed.

End LoadValidWordsFacts.

Lemma forallb_Forall {A} (f : A -> bool) (l : list A) :
  forallb f l = true -> Forall (fun x => f x = true) l.
Proof.
  rewrite forallb_forall. intros H. apply Forall_forall.
  intros x Hx. now apply H, list_elem_of_In.
Qed.

(** What [attempt_is_valid] answers, for a list whose [num_words] rows
    are in the array. *)
Lemma attempt_is_valid_run (WORD_SIZE : nat) (valid_words : valid_word_list_t)
    (attempt : list ascii) (err : list string) :
  (Z.to_nat (num_words valid_words) <= length (words valid_words))%nat ->
  exists ret err',
    attempt_is_valid WORD_SIZE valid_words attempt err = (Ok ret, err') /\
    (ret = 1 \/ ret = 0) /\
    (ret = 1 <-> length attempt = WORD_SIZE /\ attempt ∈ word_set valid_words) /\
    (ret = 1 -> err' = err).
Proof.
  intros Hnum. unfold attempt_is_valid, strlen.
  destruct (Nat.eqb_spec (length attempt) WORD_SIZE) as [Hlen|Hlen]; simpl.
  - destruct (search_words_run valid_words Hnum attempt err) as (found & Hrun & Hpost).
    rewrite (bind_ok _ _ _ _ _ Hrun).
    destruct found as [v|].
    + destruct Hpost as (-> & Hin). exists 1, err. split; [reflexivity|]. tauto.
    + exists 0, (err ++ [not_a_valid_word attempt]). split; [reflexivity|].
      split; [tauto|]. split; [|discriminate]. split; [discriminate|tauto].
  - exists 0, (err ++ [not_a_valid_word attempt]). split; [reflexivity|].
    split; [tauto|]. split; [|discriminate]. split; [discriminate|tauto].
Qed.

Lemma skip_space_lines_then (WORD_SIZE : nat) (pre : list (list ascii))
    (long rest : list ascii) :
  Forall (fun w => fits WORD_SIZE w = true) pre ->
  plain_word long = true ->
  skip_space (lines pre ++ long ++ rest) = lines pre ++ long ++ rest.
Proof.
  intros Hpre Hlong. destruct Hpre as [|w pre Hw _].
  - change (lines [] ++ long ++ rest) with (long ++ rest). now apply skip_space_plain.
  - unfold fits in Hw. apply andb_prop in Hw. destruct Hw as [Hw _].
    rewrite lines_cons, <- app_assoc. now apply skip_space_plain.
Qed.

Section LoadValidWordsResults.

Variables WORD_SIZE MAX_VALID_WORDS : nat.

Lemma load_valid_words_lines_run (ws : list (list ascii))
    (s : text_reader valid_word_list_t) :
  forallb (fits WORD_SIZE) ws = true ->
  length (words (tr_target s)) = MAX_VALID_WORDS ->
  exists s',
    load_valid_words WORD_SIZE MAX_VALID_WORDS (Some (lines ws)) s = (Ok 1, s') /\
    length (words (tr_target s')) = MAX_VALID_WORDS /\
    num_words (tr_target s') = Z.of_nat (Nat.min MAX_VALID_WORDS (length ws)) /\
    word_set (tr_target s') = take MAX_VALID_WORDS ws.
Proof.
  intros Hfits Hrows. apply forallb_Forall in Hfits.
  unfold load_valid_words, open_text.
  unfold modify at 1. unfold bind at 1. simpl.
  destruct (read_words_lines WORD_SIZE MAX_VALID_WORDS ws Hfits
              (Datatypes.S MAX_VALID_WORDS) 0
              (TextReader (tr_target s) (lines ws) (tr_word s)))
    as (s1 & Hrun & Hwords & _); simpl; try lia.
  { apply skip_space_lines. eapply fits_plain, Hfits. }
  rewrite (bind_ok _ _ _ _ _ Hrun).
  unfold gets, set_target, modify, bind, ret. simpl in *.
  eexists. split; [reflexivity|]. simpl.
  assert (Hlt : length (take MAX_VALID_WORDS ws) = Nat.min MAX_VALID_WORDS (length ws))
    by apply length_take.
  rewrite Nat.sub_0_r in Hwords.
  split; [|split; [reflexivity|]].
  - rewrite Hwords, length_app, length_drop. lia.
  - unfold word_set. simpl. rewrite Nat2Z.id, Hwords.
    now rewrite take_app_length' by lia.
Qed.

(** A word too long for [word] among the first [MAX_VALID_WORDS + 1]
    words of the file. *)
Lemma read_words_overflow (long rest : list ascii) (pre : list (list ascii)) :
  Forall (fun w => fits WORD_SIZE w = true) pre ->
  plain_word long = true ->
  (WORD_SIZE < length long)%nat ->
  forall rounds word_count (s : text_reader valid_word_list_t),
  skip_space (tr_stream s) = lines pre ++ long ++ LF :: rest ->
  length (words (tr_target s)) = MAX_VALID_WORDS ->
  (word_count + length pre <= MAX_VALID_WORDS)%nat ->
  (MAX_VALID_WORDS < word_count + rounds)%nat ->
  (read_words WORD_SIZE MAX_VALID_WORDS rounds word_count s).1
  = Fault (OutOfBounds (Z.of_nat (Datatypes.S WORD_SIZE))).
Proof.
  intros Hfits Hplain Hlong. induction Hfits as [|w pre Hw Hpre IH];
    intros rounds word_count s Hstream Hrows Hle Hlt;
    (destruct rounds as [|rounds]; [simpl in Hle; lia|]); simpl read_words.
  - simpl in Hstream.
    rewrite (bind_fault _ _ _ _ _
               (fscanf_s_overflow WORD_SIZE long rest LF s Hplain Hlong eq_refl Hstream)).
    reflexivity.
  - rewrite lines_cons, <- app_assoc in Hstream. simpl in Hstream, Hle.
    rewrite (bind_ok _ _ _ _ _
               (fscanf_s_word WORD_SIZE w _ LF s Hw eq_refl Hstream)).
    simpl (1 =? EOF). cbv iota.
    destruct (Nat.leb_spec MAX_VALID_WORDS word_count) as [Hfull|Hroom]; [lia|].
    unfold gets at 1. unfold bind at 1. simpl.
    unfold gets at 1. unfold bind at 1. simpl.
    erewrite bind_ok by (apply store_ok; lia).
    unfold set_target at 1. unfold modify at 1. unfold bind at 1. simpl.
    apply IH; simpl; try lia.
    + now apply (skip_space_lines_then WORD_SIZE).
    + rewrite length_insert. exact Hrows.
Qed.

End LoadValidWordsResults.

(** X9: a [words.txt] with one word on each line, each of at most
    [WORD_SIZE] characters, loads with return value 1; [num_words] is
    the number of lines, at most [MAX_VALID_WORDS], and the listed words
    are the first [MAX_VALID_WORDS] words of the file, in the order of
    the file. *)
Theorem load_valid_words_lines
    (WORD_SIZE MAX_VALID_WORDS : nat) (ws : list (list ascii))
    (s : text_reader valid_word_list_t) :
  forallb (fits WORD_SIZE) ws = true ->
  length (words (tr_target s)) = MAX_VALID_WORDS ->
  exists s',
    load_valid_words WORD_SIZE MAX_VALID_WORDS (Some (lines ws)) s = (Ok 1, s') /\
    num_words (tr_target s') = Z.of_nat (Nat.min MAX_VALID_WORDS (length ws)) /\
    word_set (tr_target s') = take MAX_VALID_WORDS ws.
Proof.
  intros Hfits Hrows.
  destruct (load_valid_words_lines_run WORD_SIZE MAX_VALID_WORDS ws s Hfits Hrows)
    as (s' & Hrun & _ & Hnum & Hset).
  exists s'. tauto.
Qed.

Lemma load_valid_words_lines_witness :
  exists s',
    load_valid_words 5 2 (Some (lines [word "bread"; word "blood"; word "boron"]))
      (TextReader {| words := [[]; []]; num_words := 0 |} [] [])
    = (Ok 1, s') /\
    num_words (tr_target s') = Z.of_nat (Nat.min 2 (length [word "bread"; word "blood"; word "boron"])) /\
    word_set (tr_target s') = take 2 [word "bread"; word "blood"; word "boron"].
Proof.
  apply (load_valid_words_lines 5 2 [word "bread"; word "blood"; word "boron"]
           (TextReader {| words := [[]; []]; num_words := 0 |} [] []));
    reflexivity.
Defined.

(** X10: after [load_valid_words] on such a file, [attempt_is_valid]
    returns 1 exactly for the attempts of [WORD_SIZE] characters that
    are among the first [MAX_VALID_WORDS] words of the file, and 0 for
    the others. *)
Theorem attempt_is_valid_after_load
    (WORD_SIZE MAX_VALID_WORDS : nat) (ws : list (list ascii))
    (s : text_reader valid_word_list_t) (attempt : list ascii) (err : list string) :
  forallb (fits WORD_SIZE) ws = true ->
  length (words (tr_target s)) = MAX_VALID_WORDS ->
  exists s' ret err',
    load_valid_words WORD_SIZE MAX_VALID_WORDS (Some (lines ws)) s = (Ok 1, s') /\
    attempt_is_valid WORD_SIZE (tr_target s') attempt err = (Ok ret, err') /\
    (ret = 1 \/ ret = 0) /\
    (ret = 1 <-> length attempt = WORD_SIZE /\ attempt ∈ take MAX_VALID_WORDS ws).
Proof.
  intros Hfits Hrows.
  destruct (load_valid_words_lines_run WORD_SIZE MAX_VALID_WORDS ws s Hfits Hrows)
    as (s' & Hrun & Hlen & Hnum & Hset).
  destruct (attempt_is_valid_run WORD_SIZE (tr_target s') attempt err)
    as (ret & err' & Hvalid & Hret & Hiff & _).
  { rewrite Hnum, Nat2Z.id, Hlen. lia. }
  exists s', ret, err'. rewrite Hset in Hiff. tauto.
Qed.

Lemma attempt_is_valid_after_load_witness :
  exists s' ret err',
    load_valid_words 5 4 (Some (lines [word "bread"; word "blood"]))
      (TextReader {| words := [[]; []; []; []]; num_words := 0 |} [] [])
    = (Ok 1, s') /\
    attempt_is_valid 5 (tr_target s') (word "blood") [] = (Ok ret, err') /\
    (ret = 1 \/ ret = 0) /\
    (ret = 1 <-> length (word "blood") = 5%nat /\
                 word "blood" ∈ take 4 [word "bread"; word "blood"]).
Proof.
  apply (attempt_is_valid_after_load 5 4 [word "bread"; word "blood"]
           (TextReader {| words := [[]; []; []; []]; num_words := 0 |} [] [])
           (word "blood") []);
    reflexivity.
Defined.

(** X11: [load_valid_words] reads each word with "%s" into
    [char word[WORD_SIZE + 1]]; when one of the first
    [MAX_VALID_WORDS + 1] words of the file has more than [WORD_SIZE]
    characters, it is written past the end of [word], also when it is
    the word after the last row, which would not be stored. *)
Theorem load_valid_words_long_word
    (WORD_SIZE MAX_VALID_WORDS : nat) (pre : list (list ascii)) (long rest : list ascii)
    (s : text_reader valid_word_list_t) :
  forallb (fits WORD_SIZE) pre = true ->
  plain_word long = true ->
  (WORD_SIZE < length long)%nat ->
  (length pre <= MAX_VALID_WORDS)%nat ->
  length (words (tr_target s)) = MAX_VALID_WORDS ->
  (load_valid_words WORD_SIZE MAX_VALID_WORDS
     (Some (lines pre ++ long ++ LF :: rest)) s).1
  = Fault (OutOfBounds (Z.of_nat (Datatypes.S WORD_SIZE))).
Proof.
  intros Hfits Hplain Hlong Hpre Hrows. apply forallb_Forall in Hfits.
  assert (Hfault :
    (read_words WORD_SIZE MAX_VALID_WORDS (Datatypes.S MAX_VALID_WORDS) 0
       (TextReader (tr_target s) (lines pre ++ long ++ LF :: rest) (tr_word s))).1
    = Fault (OutOfBounds (Z.of_nat (Datatypes.S WORD_SIZE)))).
  { apply (read_words_overflow WORD_SIZE MAX_VALID_WORDS long rest pre Hfits Hplain Hlong);
      simpl; try lia.
    now apply (skip_space_lines_then WORD_SIZE). }
  unfold load_valid_words, open_text.
  unfold modify at 1. unfold bind at 1.
  change ((Ok (), TextReader (tr_target s) (lines pre ++ long ++ LF :: rest) (tr_word s)))
    with ((Ok (), TextReader (tr_target s) (lines pre ++ long ++ LF :: rest) (tr_word s))
          : outcome unit * text_reader valid_word_list_t).
  cbv iota beta. unfold bind at 1.
  destruct (read_words WORD_SIZE MAX_VALID_WORDS (Datatypes.S MAX_VALID_WORDS) 0
              (TextReader (tr_target s) (lines pre ++ long ++ LF :: rest) (tr_word s)))
    as [[n|f] s1]; simpl in Hfault; [discriminate|].
  simpl. injection Hfault as ->. reflexivity.
Qed.

Lemma load_valid_words_long_word_witness :
  (load_valid_words 5 1
     (Some (lines [word "bread"] ++ word "yorkle" ++ LF :: []))
     (TextReader {| words := [[]]; num_words := 0 |} [] [])).1
  = Fault (OutOfBounds (Z.of_nat (Datatypes.S 5))).
Proof.
  apply (load_valid_words_long_word 5 1 [word "bread"] (word "yorkle") []
           (TextReader {| words := [[]]; num_words := 0 |} [] []));
    try reflexivity; simpl; lia.
Defined.

(** ** load_todays_answer *)

Lemma skip_space_blank (text : list ascii) :
  forallb isspace text = true -> skip_space text = [].
Proof.
  induction text as [|c text IH]; simpl; [reflexivity|].
  intros H. apply andb_prop in H. destruct H as [Hc Ht]. rewrite Hc. now apply IH.
Qed.

(** X12: from an [answer.txt] that starts with a word of at most
    [WORD_SIZE] characters followed by a line break,
    [load_todays_answer] returns 1 and stores that word, with its NUL,
    in [answer]. *)
Theorem load_todays_answer_word
    (WORD_SIZE : nat) (w rest : list ascii) (s : text_reader (list ascii)) :
  fits WORD_SIZE w = true ->
  load_todays_answer WORD_SIZE (Some (w ++ LF :: rest)) s
  = (Ok 1, TextReader w (LF :: rest) w).
Proof.
  intros Hfit. unfold load_todays_answer, open_text.
  unfold modify at 1. unfold bind at 1. cbv iota beta.
  erewrite bind_ok.
  2: { apply (fscanf_s_word WORD_SIZE w rest LF); [exact Hfit|reflexivity|].
       simpl. apply skip_space_plain.
       unfold fits in Hfit. now apply andb_prop in Hfit. }
  reflexivity.
Qed.

Lemma load_todays_answer_word_witness :
  load_todays_answer 5 (Some (word "bread" ++ LF :: [])) (TextReader [] [] [])
  = (Ok 1, TextReader (word "bread") (LF :: []) (word "bread")).
Proof.
  apply (load_todays_answer_word 5 (word "bread") [] (TextReader [] [] [])).
  reflexivity.
Defined.

(** X13: the return value of [fscanf] is not tested: from an
    [answer.txt] that holds white space only (or nothing),
    [load_todays_answer] still returns 1, and [answer] gets the string
    that the local array [word] held at entry, when [word] held a string
    (of at most [WORD_SIZE] characters, as the array has
    [WORD_SIZE + 1]); the string in [answer] then is no word of the
    file, and it is of at most [WORD_SIZE] characters. *)
Theorem load_todays_answer_no_word
    (WORD_SIZE : nat) (text : list ascii) (s : text_reader (list ascii)) :
  forallb isspace text = true ->
  holds_string WORD_SIZE (tr_word s) ->
  load_todays_answer WORD_SIZE (Some text) s
  = (Ok 1, TextReader (tr_word s) [] (tr_word s)) /\
  (length (tr_target (load_todays_answer WORD_SIZE (Some text) s).2) <= WORD_SIZE)%nat.
Proof.
  intros Hblank [Hlen _].
  assert (Hrun : load_todays_answer WORD_SIZE (Some text) s
                 = (Ok 1, TextReader (tr_word s) [] (tr_word s))); [|now rewrite Hrun].
  unfold load_todays_answer, open_text.
  unfold modify at 1. unfold bind at 1. cbv iota beta.
  erewrite bind_ok by (apply fscanf_s_end; simpl; now apply skip_space_blank).
  reflexivity.
Qed.

Lemma load_todays_answer_no_word_witness :
  load_todays_answer 5 (Some [LF; LF]) (TextReader (word "bread") [] (word "stale"))
  = (Ok 1, TextReader (word "stale") [] (word "stale")) /\
  (length (tr_target (load_todays_answer 5 (Some [LF; LF])
                        (TextReader (word "bread") [] (word "stale"))).2) <= 5)%nat.
Proof.
  apply (load_todays_answer_no_word 5 [LF; LF]
           (TextReader (word "bread") [] (word "stale"))).
  - reflexivity.
  - split; [simpl; lia|reflexivity].
Defined.



(** ** read_attempt *)

Lemma isspace_not_EOF c : isspace c = true -> c <> EOF_char.
Proof. intros H ->. vm_compute in H. discriminate. Qed.

Lemma first_letter_blanks (blanks rest : list ascii) c :
  forallb isspace blanks = true ->
  isspace c = false ->
  c <> EOF_char ->
  first_letter (blanks ++ c :: rest) = (Some (tolower c), rest).
Proof.
  intros Hb Hc Hne. induction blanks as [|b blanks IH]; simpl.
  - destruct (Ascii.eqb_spec c EOF_char); [contradiction|]. now rewrite Hc.
  - simpl in Hb. apply andb_prop in Hb. destruct Hb as [Hsp Hb].
    destruct (Ascii.eqb_spec b EOF_char) as [->|_].
    + vm_compute in Hsp. discriminate.
    + rewrite Hsp. simpl. now apply IH.
Qed.

Lemma first_letter_none (blanks : list ascii) :
  forallb isspace blanks = true -> first_letter blanks = (None, []).
Proof.
  induction blanks as [|b blanks IH]; simpl; [reflexivity|].
  intros Hb. apply andb_prop in Hb. destruct Hb as [Hsp Hb].
  destruct (Ascii.eqb_spec b EOF_char) as [->|_].
  - vm_compute in Hsp. discriminate.
  - rewrite Hsp. simpl. now apply IH.
Qed.

Lemma getchar_at (input : list ascii) (k : nat) (s : console) :
  stdin s = drop k input ->
  getchar s = (Ok (char_at input k),
               Console (drop (Datatypes.S k) input) (stdout s) (attempt_buf s)).
Proof.
  intros Hin. unfold getchar, char_at. rewrite Hin.
  destruct (input !! k) as [c|] eqn:Hk.
  - rewrite (drop_S _ _ _ Hk). reflexivity.
  - apply lookup_ge_None in Hk. rewrite !drop_ge by lia.
    destruct s as [i o b]. simpl in *. rewrite Hin, drop_ge by lia. reflexivity.
Qed.

Lemma write_attempt_ok i c (s : console) :
  (i < length (attempt_buf s))%nat ->
  write_attempt i c s = (Ok tt, Console (stdin s) (stdout s) (<[i:=c]> (attempt_buf s))).
Proof.
  intros Hi. unfold write_attempt, bind, gets, modify. now rewrite store_ok.
Qed.

Section ReadAttemptFacts.

Variable WORD_SIZE : nat.

(** Lines 149-154: the second loop reads [m] characters that are not
    white space; it stops there at a white space, which it takes from
    the input, or because [m] is [WORD_SIZE - 1]. *)
Lemma read_rest_run (input : list ascii) (m : nat) (s : console) :
  stdin s = input ->
  (forall k, (k < m)%nat -> isspace (char_at input k) = false) ->
  (m <= WORD_SIZE - 1)%nat ->
  ((m < WORD_SIZE - 1)%nat -> isspace (char_at input m) = true) ->
  (WORD_SIZE <= length (attempt_buf s))%nat ->
  exists stop s',
    for_until 1 (WORD_SIZE - 1) (fun i =>
      bind getchar (fun current_char =>
        if isspace current_char then ret (Some i)
        else bind (write_attempt i (tolower current_char)) (fun _ => ret None))) s
    = (Ok stop, s') /\
    match stop with Some i => i | None => Nat.max 1 WORD_SIZE end = Datatypes.S m /\
    stdin s' = drop (if (m <? WORD_SIZE - 1)%nat then Datatypes.S m else m) input /\
    stdout s' = stdout s /\
    length (attempt_buf s') = length (attempt_buf s) /\
    (forall k, (k < m)%nat ->
       attempt_buf s' !! Datatypes.S k = Some (tolower (char_at input k))) /\
    (forall k, k = 0%nat \/ (m < k)%nat -> attempt_buf s' !! k = attempt_buf s !! k).
Proof.
  intros Hin Hword Hm Hstop Hbuf.
  pose (I := fun (j : nat) (s' : console) =>
    (1 <= j <= Datatypes.S m)%nat /\
    stdin s' = drop (j - 1) input /\
    stdout s' = stdout s /\
    length (attempt_buf s') = length (attempt_buf s) /\
    (forall k, (Datatypes.S k < j)%nat ->
       attempt_buf s' !! Datatypes.S k = Some (tolower (char_at input k))) /\
    (forall k, k = 0%nat \/ (j <= k)%nat -> attempt_buf s' !! k = attempt_buf s !! k)).
  pose (Q := fun (i : nat) (s' : console) =>
    i = Datatypes.S m /\ (m < WORD_SIZE - 1)%nat /\
    stdin s' = drop (Datatypes.S m) input /\
    stdout s' = stdout s /\
    length (attempt_buf s') = length (attempt_buf s) /\
    (forall k, (k < m)%nat ->
       attempt_buf s' !! Datatypes.S k = Some (tolower (char_at input k))) /\
    (forall k, k = 0%nat \/ (m < k)%nat -> attempt_buf s' !! k = attempt_buf s !! k)).
  destruct (for_until_invariant I Q
    (fun i => bind getchar (fun current_char =>
       if isspace current_char then ret (Some i)
       else bind (write_attempt i (tolower current_char)) (fun _ => ret None)))
    (WORD_SIZE - 1) 1%nat) with (s := s) as (stop & s' & Hrun & Hpost).
  - intros j s0 Hj (Hj1 & Hs0 & Hout & Hlen & Hwr & Hkeep).
    rewrite (bind_ok _ _ _ _ _ (getchar_at input (j - 1) s0 Hs0)).
    destruct (decide (j - 1 < m)%nat) as [Hlt|Hge].
    + rewrite (Hword (j - 1)%nat Hlt).
      erewrite bind_ok by (apply write_attempt_ok; simpl; lia).
      exists None. eexists. split; [reflexivity|]. unfold I. simpl.
      rewrite length_insert. repeat split; try lia; try assumption.
      * f_equal. lia.
      * intros k Hk. destruct (decide (Datatypes.S k = j)) as [<-|Hkj].
        -- rewrite list_lookup_insert_eq by lia. do 3 f_equal. lia.
        -- rewrite list_lookup_insert_ne by congruence. apply Hwr. lia.
      * intros k Hk. rewrite list_lookup_insert_ne by lia. apply Hkeep. lia.
    + assert (j = Datatypes.S m) as -> by lia.
      replace (Datatypes.S m - 1)%nat with m in * by lia.
      rewrite Hstop by lia.
      exists (Some (Datatypes.S m)). eexists. split; [reflexivity|]. unfold Q. simpl.
      repeat split; try lia; try assumption.
      intros k Hk. apply Hwr. lia.
  - unfold I. repeat split; try lia; try assumption; try (intros k Hk; lia).
  - exists stop, s'. split; [exact Hrun|]. destruct stop as [i|].
    + destruct Hpost as (-> & Hlt & Hs' & Hout & Hlen & Hwr & Hkeep).
      destruct (Nat.ltb_spec m (WORD_SIZE - 1)); [|lia]. tauto.
    + destruct Hpost as (Hj & Hs' & Hout & Hlen & Hwr & Hkeep).
      assert (m = WORD_SIZE - 1)%nat by lia.
      destruct (Nat.ltb_spec m (WORD_SIZE - 1)); [lia|].
      repeat split; try assumption; try lia.
      * rewrite Hs'. f_equal. lia.
      * intros k Hk. apply Hwr. lia.
      * intros k Hk. apply Hkeep. lia.
Qed.

(** The whole function on an input with a first letter [c]. *)
Lemma read_attempt_run (num_attempt : Z) (blanks input : list ascii) c (m : nat)
    (s : console) :
  stdin s = blanks ++ c :: input ->
  forallb isspace blanks = true ->
  isspace c = false ->
  c <> EOF_char ->
  (forall k, (k < m)%nat -> isspace (char_at input k) = false) ->
  (m <= WORD_SIZE - 1)%nat ->
  ((m < WORD_SIZE - 1)%nat -> isspace (char_at input m) = true) ->
  (1 <= WORD_SIZE)%nat ->
  (Datatypes.S WORD_SIZE <= length (attempt_buf s))%nat ->
  exists s',
    read_attempt WORD_SIZE num_attempt s = (Ok 1, s') /\
    stdin s' = drop (if (m <? WORD_SIZE - 1)%nat then Datatypes.S m else m) input /\
    stdout s' = stdout s ++ prompt num_attempt /\
    length (attempt_buf s') = length (attempt_buf s) /\
    attempt_buf s' !! 0%nat = Some (tolower c) /\
    (forall k, (k < m)%nat ->
       attempt_buf s' !! Datatypes.S k = Some (tolower (char_at input k))) /\
    attempt_buf s' !! Datatypes.S m = Some NUL /\
    (forall k, (Datatypes.S m < k)%nat -> attempt_buf s' !! k = attempt_buf s !! k).
Proof.
  intros Hin Hblanks Hc Hne Hword Hm Hstop Hpos Hbuf.
  unfold read_attempt, printf_console.
  unfold modify at 1. unfold bind at 1. cbv iota beta.
  unfold bind at 1. simpl stdin. rewrite Hin.
  rewrite (first_letter_blanks blanks input c Hblanks Hc Hne). cbv iota beta.
  erewrite bind_ok by (apply write_attempt_ok; simpl; lia).
  destruct (read_rest_run input m
              (Console input (stdout s ++ prompt num_attempt)
                 (<[0%nat:=tolower c]> (attempt_buf s))))
    as (stop & s1 & Hrun & Hi & Hs1 & Hout & Hlen & Hwr & Hkeep);
    try assumption; try reflexivity.
  { simpl. rewrite length_insert. lia. }
  simpl in Hrun, Hout, Hlen, Hkeep. rewrite length_insert in Hlen.
  unfold prompt in Hrun |- *. simpl stdout. simpl attempt_buf.
  rewrite (bind_ok _ _ _ _ _ Hrun). rewrite Hi.
  erewrite bind_ok by (apply write_attempt_ok; lia).
  eexists. split; [reflexivity|]. simpl.
  rewrite length_insert.
  repeat split; try assumption.
  - rewrite list_lookup_insert_ne by lia. rewrite Hkeep by lia.
    apply list_lookup_insert_eq. lia.
  - intros k Hk. rewrite list_lookup_insert_ne by lia. now apply Hwr.
  - apply list_lookup_insert_eq. lia.
  - intros k Hk. rewrite list_lookup_insert_ne by lia. rewrite Hkeep by lia.
    apply list_lookup_insert_ne. lia.
Qed.

End ReadAttemptFacts.

Lemma take_lookup_eq {A} (l e : list A) :
  (forall k, (k < length e)%nat -> l !! k = e !! k) -> take (length e) l = e.
Proof.
  intros H. apply list_eq. intros k. destruct (decide (k < length e)%nat).
  - rewrite lookup_take_lt by lia. now apply H.
  - rewrite lookup_take_ge by lia. symmetry. apply lookup_ge_None_2. lia.
Qed.

Lemma char_at_app_l (chunk tail : list ascii) k c :
  chunk !! k = Some c -> char_at (chunk ++ tail) k = c.
Proof. intros H. unfold char_at. now rewrite (lookup_app_l_Some _ _ _ _ H). Qed.

Lemma char_at_app_head (chunk rest : list ascii) sp :
  char_at (chunk ++ sp :: rest) (length chunk) = sp.
Proof.
  unfold char_at. rewrite lookup_app_r by lia. now rewrite Nat.sub_diag.
Qed.

Lemma char_at_end (chunk : list ascii) k :
  (length chunk <= k)%nat -> char_at chunk k = EOF_char.
Proof. intros H. unfold char_at. now rewrite lookup_ge_None_2. Qed.

Lemma token_inv (tok : list ascii) :
  token tok = true ->
  exists c chunk, tok = c :: chunk /\ isspace c = false /\ c <> EOF_char /\
    Forall (fun x => isspace x = false) chunk.
Proof.
  unfold token. destruct tok as [|c chunk]; [discriminate|].
  intros H. apply andb_prop in H. destruct H as [Hne Hall].
  simpl in Hall. apply andb_prop in Hall. destruct Hall as [Hc Hall].
  exists c, chunk. split; [reflexivity|]. split; [now apply negb_true_iff|]. split.
  - destruct (Ascii.eqb_spec c EOF_char); [discriminate|assumption].
  - apply forallb_Forall in Hall. eapply Forall_impl; [exact Hall|].
    intros x Hx. now apply negb_true_iff.
Qed.

Section ReadAttemptResults.

Variable WORD_SIZE : nat.

(** [read_attempt] on an input whose word starts with [c] and goes on
    with the characters [reads]. *)
Lemma read_attempt_reads (num_attempt : Z) (blanks input reads : list ascii) c
    (s : console) :
  stdin s = blanks ++ c :: input ->
  forallb isspace blanks = true ->
  isspace c = false ->
  c <> EOF_char ->
  (forall k x, reads !! k = Some x -> char_at input k = x /\ isspace x = false) ->
  (length reads <= WORD_SIZE - 1)%nat ->
  ((length reads < WORD_SIZE - 1)%nat -> isspace (char_at input (length reads)) = true) ->
  (1 <= WORD_SIZE)%nat ->
  (Datatypes.S WORD_SIZE <= length (attempt_buf s))%nat ->
  exists s',
    read_attempt WORD_SIZE num_attempt s = (Ok 1, s') /\
    stdin s' = drop (if (length reads <? WORD_SIZE - 1)%nat
                     then Datatypes.S (length reads) else length reads) input /\
    stdout s' = stdout s ++ prompt num_attempt /\
    length (attempt_buf s') = length (attempt_buf s) /\
    take (Datatypes.S (Datatypes.S (length reads))) (attempt_buf s')
    = tolower <$> (c :: reads) ++ [NUL].
Proof.
  intros Hin Hblanks Hc Hne Hreads Hm Hstop Hpos Hbuf.
  destruct (read_attempt_run WORD_SIZE num_attempt blanks input c (length reads) s)
    as (s' & Hrun & Hs' & Hout & Hlen & H0 & Hwr & Hnul & _); try assumption.
  { intros k Hk. destruct (lookup_lt_is_Some_2 reads k Hk) as [x Hx].
    destruct (Hreads k x Hx) as [-> Hsp]. exact Hsp. }
  exists s'. repeat split; try assumption.
  set (e := tolower <$> (c :: reads) ++ [NUL]).
  assert (Hle : length e = Datatypes.S (Datatypes.S (length reads))).
  { unfold e. rewrite length_fmap, length_app. simpl. lia. }
  rewrite <- Hle. apply take_lookup_eq. intros k Hk. rewrite Hle in Hk. unfold e.
  destruct k as [|k]; [exact H0|]. simpl.
  destruct (decide (k < length reads)%nat) as [Hlt|Hge].
  - rewrite (Hwr k Hlt). destruct (lookup_lt_is_Some_2 reads k Hlt) as [x Hx].
    destruct (Hreads k x Hx) as [-> _].
    rewrite list_lookup_fmap, lookup_app_l, Hx by lia. reflexivity.
  - assert (k = length reads) as -> by lia. rewrite Hnul.
    rewrite list_lookup_fmap, lookup_app_r, Nat.sub_diag by lia. reflexivity.
Qed.

End ReadAttemptResults.

(** X15: [read_attempt] on a word of fewer than [WORD_SIZE] characters
    that is followed by a white space: leading white space is skipped,
    the word is stored in lowercase with its NUL, the white space after
    it is taken from the input, the prompt is printed and 1 is
    returned. *)
Theorem read_attempt_short_word
    (WORD_SIZE : nat) (num_attempt : Z) (blanks tok rest : list ascii) (sp : ascii)
    (s : console) :
  stdin s = blanks ++ tok ++ sp :: rest ->
  forallb isspace blanks = true ->
  token tok = true ->
  isspace sp = true ->
  (length tok < WORD_SIZE)%nat ->
  (Datatypes.S WORD_SIZE <= length (attempt_buf s))%nat ->
  exists s',
    read_attempt WORD_SIZE num_attempt s = (Ok 1, s') /\
    stdin s' = rest /\
    stdout s' = stdout s ++ prompt num_attempt /\
    take (Datatypes.S (length tok)) (attempt_buf s') = (tolower <$> tok) ++ [NUL].
Proof.
  intros Hin Hblanks Htok Hsp Hlen Hbuf.
  destruct (token_inv tok Htok) as (c & chunk & -> & Hc & Hne & Hchunk).
  simpl in Hlen, Hin.
  destruct (read_attempt_reads WORD_SIZE num_attempt blanks (chunk ++ sp :: rest) chunk c s)
    as (s' & Hrun & Hs' & Hout & _ & Hbuf'); try assumption; try lia.
  - intros k x Hx. split; [now apply char_at_app_l|].
    rewrite Forall_lookup in Hchunk. exact (Hchunk k x Hx).
  - intros _. now rewrite char_at_app_head.
  - exists s'. split; [exact Hrun|].
    split; [|split; [exact Hout|rewrite fmap_app in Hbuf'; exact Hbuf']].
    rewrite Hs'. destruct (Nat.ltb_spec (length chunk) (WORD_SIZE - 1)); [|lia].
    change (sp :: rest) with ([sp] ++ rest).
    rewrite app_assoc, drop_app_length'; [reflexivity|].
    rewrite length_app. simpl. lia.
Qed.

Lemma read_attempt_short_word_witness :
  exists s',
    read_attempt 5 1 (Console ([LF] ++ word "Hey" ++ LF :: word "next") []
                        (replicate 6 NUL))
    = (Ok 1, s') /\
    stdin s' = word "next" /\
    stdout s' = [] ++ prompt 1 /\
    take (Datatypes.S (length (word "Hey"))) (attempt_buf s')
    = (tolower <$> word "Hey") ++ [NUL].
Proof.
  apply (read_attempt_short_word 5 1 [LF] (word "Hey") (word "next") LF
           (Console ([LF] ++ word "Hey" ++ LF :: word "next") [] (replicate 6 NUL)));
    try reflexivity; simpl; lia.
Defined.

(** X16: [read_attempt] takes at most [WORD_SIZE] characters of a word:
    on a word of [WORD_SIZE] characters or more it stores the first
    [WORD_SIZE] in lowercase, and whatever follows them, the rest of a
    longer word or the line break, stays in the input for the next
    read. *)
Theorem read_attempt_full_word
    (WORD_SIZE : nat) (num_attempt : Z) (blanks tok rest : list ascii) (s : console) :
  stdin s = blanks ++ tok ++ rest ->
  forallb isspace blanks = true ->
  token tok = true ->
  length tok = WORD_SIZE ->
  (Datatypes.S WORD_SIZE <= length (attempt_buf s))%nat ->
  exists s',
    read_attempt WORD_SIZE num_attempt s = (Ok 1, s') /\
    stdin s' = rest /\
    stdout s' = stdout s ++ prompt num_attempt /\
    take (Datatypes.S WORD_SIZE) (attempt_buf s') = (tolower <$> tok) ++ [NUL].
Proof.
  intros Hin Hblanks Htok Hlen Hbuf.
  destruct (token_inv tok Htok) as (c & chunk & -> & Hc & Hne & Hchunk).
  simpl in Hlen, Hin.
  destruct (read_attempt_reads WORD_SIZE num_attempt blanks (chunk ++ rest) chunk c s)
    as (s' & Hrun & Hs' & Hout & _ & Hbuf'); try assumption; try lia.
  - intros k x Hx. split; [now apply char_at_app_l|].
    rewrite Forall_lookup in Hchunk. exact (Hchunk k x Hx).
  - exists s'. split; [exact Hrun|]. split; [|split; [exact Hout|]].
    + rewrite Hs'. destruct (Nat.ltb_spec (length chunk) (WORD_SIZE - 1)); [lia|].
      now rewrite drop_app_length.
    + rewrite <- Hlen. rewrite fmap_app in Hbuf'. exact Hbuf'.
Qed.

Lemma read_attempt_full_word_witness :
  exists s',
    read_attempt 5 1 (Console ([] ++ word "BREAD" ++ word "crumbs") [] (replicate 6 NUL))
    = (Ok 1, s') /\
    stdin s' = word "crumbs" /\
    stdout s' = [] ++ prompt 1 /\
    take (Datatypes.S 5) (attempt_buf s') = (tolower <$> word "BREAD") ++ [NUL].
Proof.
  apply (read_attempt_full_word 5 1 [] (word "BREAD") (word "crumbs")
           (Console ([] ++ word "BREAD" ++ word "crumbs") [] (replicate 6 NUL)));
    try reflexivity; simpl; lia.
Defined.

(** X17: when the input ends before any character that is not white
    space, [read_attempt] prints the prompt, returns 0 and leaves
    [attempt] as it was. *)
Theorem read_attempt_end_of_input
    (WORD_SIZE : nat) (num_attempt : Z) (s : console) :
  forallb isspace (stdin s) = true ->
  read_attempt WORD_SIZE num_attempt s
  = (Ok 0, Console [] (stdout s ++ prompt num_attempt) (attempt_buf s)).
Proof.
  intros Hblank. unfold read_attempt, printf_console.
  unfold modify at 1. unfold bind at 1. cbv iota beta.
  unfold bind at 1. simpl stdin. rewrite (first_letter_none _ Hblank). reflexivity.
Qed.

Lemma read_attempt_end_of_input_witness :
  read_attempt 5 3 (Console [LF; LF] [] (word "bread"))
  = (Ok 0, Console [] ([] ++ prompt 3) (word "bread")).
Proof.
  apply (read_attempt_end_of_input 5 3 (Console [LF; LF] [] (word "bread"))).
  reflexivity.
Defined.

(** X18: when the input ends inside a word, after fewer than
    [WORD_SIZE] characters, [read_attempt] does not stop: each further
    [getchar] gives [EOF], which is not white space, so the word is
    filled up to [WORD_SIZE] characters with the byte of [EOF], and 1 is
    returned. *)
Theorem read_attempt_input_ends_in_word
    (WORD_SIZE : nat) (num_attempt : Z) (blanks tok : list ascii) (s : console) :
  stdin s = blanks ++ tok ->
  forallb isspace blanks = true ->
  token tok = true ->
  (length tok <= WORD_SIZE)%nat ->
  (Datatypes.S WORD_SIZE <= length (attempt_buf s))%nat ->
  exists s',
    read_attempt WORD_SIZE num_attempt s = (Ok 1, s') /\
    stdin s' = [] /\
    take (Datatypes.S WORD_SIZE) (attempt_buf s')
    = (tolower <$> tok) ++ replicate (WORD_SIZE - length tok) EOF_char ++ [NUL].
Proof.
  intros Hin Hblanks Htok Hlen Hbuf.
  destruct (token_inv tok Htok) as (c & chunk & -> & Hc & Hne & Hchunk).
  simpl in Hlen, Hin.
  set (pad := replicate (WORD_SIZE - Datatypes.S (length chunk)) EOF_char).
  assert (Hlr : length (chunk ++ pad) = (WORD_SIZE - 1)%nat).
  { unfold pad. rewrite length_app, length_replicate. lia. }
  destruct (read_attempt_reads WORD_SIZE num_attempt blanks chunk (chunk ++ pad) c s)
    as (s' & Hrun & Hs' & _ & _ & Hbuf'); try assumption; try lia.
  - intros k x Hx. apply lookup_app_Some in Hx. destruct Hx as [Hx|[Hk Hx]].
    + split; [unfold char_at; now rewrite Hx|].
      rewrite Forall_lookup in Hchunk. exact (Hchunk k x Hx).
    + unfold pad in Hx. apply lookup_replicate in Hx. destruct Hx as [-> _].
      split; [now apply char_at_end|reflexivity].
  - exists s'. split; [exact Hrun|]. split.
    + rewrite Hs', Hlr. destruct (Nat.ltb_spec (WORD_SIZE - 1) (WORD_SIZE - 1)); [lia|].
      apply drop_ge. lia.
    + rewrite Hlr in Hbuf'.
      replace (Datatypes.S (Datatypes.S (WORD_SIZE - 1))) with (Datatypes.S WORD_SIZE)
        in Hbuf' by lia.
      rewrite Hbuf'. simpl. f_equal. unfold pad.
      rewrite !fmap_app, fmap_replicate, <- app_assoc. reflexivity.
Qed.

Lemma read_attempt_input_ends_in_word_witness :
  exists s',
    read_attempt 5 1 (Console ([] ++ word "Hi") [] (replicate 6 NUL)) = (Ok 1, s') /\
    stdin s' = [] /\
    take (Datatypes.S 5) (attempt_buf s')
    = (tolower <$> word "Hi") ++ replicate (5 - length (word "Hi")) EOF_char ++ [NUL].
Proof.
  apply (read_attempt_input_ends_in_word 5 1 [] (word "Hi")
           (Console ([] ++ word "Hi") [] (replicate 6 NUL)));
    try reflexivity; simpl; lia.
Defined.

(** ** read_attempt and attempt_is_valid together *)

Lemma tolower_not_NUL c : c <> NUL -> tolower c <> NUL.
Proof.
  intros Hc. destruct c as [[] [] [] [] [] [] [] []]; vm_compute in Hc |- *; congruence.
Qed.

Lemma c_str_prefix (pre buf : list ascii) :
  Forall (fun c => c <> NUL) pre ->
  take (Datatypes.S (length pre)) buf = pre ++ [NUL] ->
  c_str buf = pre.
Proof.
  intros Hpre Htake.
  assert (Hbuf : buf = pre ++ NUL :: drop (Datatypes.S (length pre)) buf).
  { rewrite <- (take_drop (Datatypes.S (length pre)) buf) at 1.
    rewrite Htake, <- app_assoc. reflexivity. }
  rewrite Hbuf. generalize (drop (Datatypes.S (length pre)) buf). intros tail.
  clear Htake Hbuf. induction Hpre as [|c pre Hc _ IH]; simpl.
  - reflexivity.
  - destruct (Ascii.eqb_spec c NUL); [contradiction|]. now rewrite IH.
Qed.

(** X19: a word of [WORD_SIZE] letters typed in any mix of upper and
    lower case is accepted when its lowercase form is listed:
    [read_attempt] leaves the lowercase word in [attempt], and
    [attempt_is_valid] on it returns 1 and writes nothing to standard
    error. *)
Theorem typed_word_is_accepted
    (WORD_SIZE : nat) (num_attempt : Z) (blanks tok rest : list ascii) (s : console)
    (valid_words : valid_word_list_t) (err : list string) :
  stdin s = blanks ++ tok ++ rest ->
  forallb isspace blanks = true ->
  token tok = true ->
  plain_word tok = true ->
  length tok = WORD_SIZE ->
  (Datatypes.S WORD_SIZE <= length (attempt_buf s))%nat ->
  (Z.to_nat (num_words valid_words) <= length (words valid_words))%nat ->
  (tolower <$> tok) ∈ word_set valid_words ->
  exists s',
    read_attempt WORD_SIZE num_attempt s = (Ok 1, s') /\
    c_str (attempt_buf s') = tolower <$> tok /\
    attempt_is_valid WORD_SIZE valid_words (c_str (attempt_buf s')) err = (Ok 1, err).
Proof.
  intros Hin Hblanks Htok Hplain Hlen Hbuf Hnum Hlisted.
  assert (Hnul : Forall (fun c => c <> NUL) (tolower <$> tok)).
  { apply plain_word_inv in Hplain. destruct Hplain as [_ Hall].
    apply Forall_fmap. eapply Forall_impl; [exact Hall|].
    intros c [_ Hc]. now apply tolower_not_NUL. }
  assert (Hread : exists s',
            read_attempt WORD_SIZE num_attempt s = (Ok 1, s') /\
            take (Datatypes.S WORD_SIZE) (attempt_buf s') = (tolower <$> tok) ++ [NUL]).
  { destruct (token_inv tok Htok) as (c & chunk & -> & Hc & Hne & Hchunk).
    simpl in Hlen, Hin.
    destruct (read_attempt_reads WORD_SIZE num_attempt blanks (chunk ++ rest) chunk c s)
      as (s' & Hrun & _ & _ & _ & Hbuf'); try assumption; try lia.
    - intros k x Hx. split; [now apply char_at_app_l|].
      rewrite Forall_lookup in Hchunk. exact (Hchunk k x Hx).
    - exists s'. split; [exact Hrun|].
      rewrite <- Hlen. rewrite fmap_app in Hbuf'. exact Hbuf'. }
  destruct Hread as (s' & Hrun & Htake).
  assert (Hstr : c_str (attempt_buf s') = tolower <$> tok).
  { apply c_str_prefix; [exact Hnul|]. now rewrite length_fmap, Hlen. }
  exists s'. split; [exact Hrun|]. split; [exact Hstr|]. rewrite Hstr.
  destruct (attempt_is_valid_run WORD_SIZE valid_words (tolower <$> tok) err Hnum)
    as (ret & err' & Hvalid & _ & Hiff & Herr).
  assert (Hret : ret = 1).
  { apply Hiff. split; [|exact Hlisted]. rewrite length_fmap. exact Hlen. }
  subst ret. rewrite (Herr eq_refl) in Hvalid. exact Hvalid.
Qed.

Lemma typed_word_is_accepted_witness :
  exists s',
    read_attempt 5 1 (Console ([] ++ word "BreaD" ++ [LF]) [] (replicate 6 NUL)) = (Ok 1, s') /\
    c_str (attempt_buf s') = tolower <$> word "BreaD" /\
    attempt_is_valid 5 {| words := [word "bread"]; num_words := 1 |}
      (c_str (attempt_buf s')) []
    = (Ok 1, []).
Proof.
  apply (typed_word_is_accepted 5 1 [] (word "BreaD") [LF]
           (Console ([] ++ word "BreaD" ++ [LF]) [] (replicate 6 NUL))
           {| words := [word "bread"]; num_words := 1 |} []);
    try reflexivity; try (simpl; lia).
  vm_compute. apply list_elem_of_here.
Defined.

(** ** print_attempt_result *)

Lemma print_attempt_result_run (attempt : list ascii) (result : list Z)
    (so : list printed) :
  (length attempt <= length result)%nat ->
  print_attempt_result attempt result so
  = (Ok tt, so ++ [Text "Result: "] ++ zip_with letter_cell result attempt
               ++ [Text newline]).
Proof.
  intros Hlen. unfold print_attempt_result, strlen.
  unfold printf at 1. unfold modify at 1. unfold bind at 1. cbv iota beta.
  set (cells := zip_with letter_cell result attempt).
  assert (Hcells : length cells = length attempt).
  { unfold cells. rewrite length_zip_with. lia. }
  pose (I := fun (i : nat) (s : list printed) =>
    s = so ++ [Text "Result: "] ++ take i cells).
  destruct (for_loop_invariant I
    (fun i => bind (load result i) (fun r => bind (load attempt i) (fun c =>
       printf [letter_cell r c])))
    (length attempt) 0%nat) with (s := so ++ [Text "Result: "]) as (s' & Hrun & Hs').
  - intros i s Hi ->.
    destruct (lookup_lt_is_Some_2 result i) as [r Hr]; [lia|].
    destruct (lookup_lt_is_Some_2 attempt i) as [c Hc]; [lia|].
    rewrite (bind_ok _ _ _ _ _ (load_ok _ _ _ _ Hr)).
    rewrite (bind_ok _ _ _ _ _ (load_ok _ _ _ _ Hc)).
    eexists. split; [reflexivity|]. unfold I.
    assert (Hcell : cells !! i = Some (letter_cell r c)).
    { unfold cells. rewrite lookup_zip_with, Hr, Hc. reflexivity. }
    rewrite (take_S_r _ _ _ Hcell). now rewrite <- !app_assoc.
  - unfold I. now rewrite take_0.
  - rewrite (bind_ok _ _ _ _ _ Hrun). unfold I in Hs'. simpl in Hs'. subst s'.
    rewrite take_ge by lia. unfold printf, modify. now rewrite <- !app_assoc.
Qed.

(** X20: [print_attempt_result] prints "Result: ", one coloured cell
    for each letter of the attempt in order, and a line break; the text
    of a cell tells the letter and whether its verdict is 0, 1 or
    another value (which is shown as in place). *)
Theorem print_attempt_result_cells (attempt : list ascii) (result : list Z)
    (so : list printed) :
  (length attempt <= length result)%nat ->
  print_attempt_result attempt result so
  = (Ok tt, so ++ [Text "Result: "] ++ zip_with letter_cell result attempt
               ++ [Text newline]) /\
  forall r r' c c', letter_cell r c = letter_cell r' c' ->
    c = c' /\ (r = 0 <-> r' = 0) /\ (r = 1 <-> r' = 1).
Proof.
  intros Hlen. split; [now apply print_attempt_result_run|].
  intros r r' c c'. unfold letter_cell.
  destruct (Z.eqb_spec r 0), (Z.eqb_spec r' 0), (Z.eqb_spec r 1), (Z.eqb_spec r' 1);
    intros H; cbv in H; try congruence;
    (split; [congruence|]); split; split; intros; subst; congruence || lia.
Qed.

Lemma print_attempt_result_cells_witness :
  print_attempt_result (word "erase") [1; 2; 1; 0; 0] []
  = (Ok tt, [] ++ [Text "Result: "] ++ zip_with letter_cell [1; 2; 1; 0; 0] (word "erase")
               ++ [Text newline]) /\
  forall r r' c c', letter_cell r c = letter_cell r' c' ->
    c = c' /\ (r = 0 <-> r' = 0) /\ (r = 1 <-> r' = 1).
Proof.
  apply (print_attempt_result_cells (word "erase") [1; 2; 1; 0; 0] []).
  simpl. lia.
Defined.

(** ** print_stats *)





